(** * Todo-Tasker: offline-first sync, relay server and merge rule

    A shallow embedding of the sync design of Todo-Tasker
    (docs/sync-architecture.md): the browser-side [SyncEngine]
    (JavaScript, over a local SQLite table [todos]) and the Go relay
    server (server/sync.go: session registry, relay, sweep, leave).

    Conventions.
    - The table [todos] is a finite map from the primary key [id] to rows.
    - JavaScript numbers that hold integers (timestamps, flags) are [Z].
    - JavaScript [<] on strings is the lexicographic order [String.ltb].
    - A rejected promise / SQL constraint error is [None]. *)

From Stdlib Require Import ZArith String List Lia.
From stdpp Require Import base option list gmap strings pretty sorting.

(** ** The record store: table [todos] *)

(** One row of [todos] (CREATE TABLE todos, "Todo Schema"); the wire form
    of a todo inside SYNC_DATA carries the same fields. *)
Record Todo := mkTodo {
  id : string;
  title : string;
  description : option string;
  completed : Z;
  priority : string;
  due_date : option Z;
  device_id : string;
  created_at : Z;
  updated_at : Z;
  deleted : Z;
  synced : Z
}.

Abbreviation DB := (gmap string Todo).

(** Modelled from the spec: [getTodoById] is called by [mergeTodo] but not
    defined in the document; the record store "exposes get-by-id", so it is
    the lookup of the primary key (tombstones included). *)
Definition getTodoById (db : DB) (k : string) : option Todo := db !! k.

(** [insertTodo]: INSERT INTO todos (id, title, description, completed,
    priority, due_date, device_id, created_at, updated_at, deleted).
    Column [synced] is not listed and takes its DEFAULT 0.  An existing
    primary key makes the statement fail. *)
Definition inserted_row (todo : Todo) : Todo :=
  {| id := id todo; title := title todo; description := description todo;
     completed := completed todo; priority := priority todo;
     due_date := due_date todo; device_id := device_id todo;
     created_at := created_at todo; updated_at := updated_at todo;
     deleted := deleted todo; synced := 0 |}.

Definition insertTodo (db : DB) (todo : Todo) : option DB :=
  match db !! id todo with
  | Some _ => None
  | None => Some (<[id todo := inserted_row todo]> db)
  end.

(** [updateTodo]: UPDATE todos SET title, description, completed, priority,
    due_date, updated_at, deleted WHERE id = ?.  The other columns of the
    row keep their stored value; no row with that id: nothing happens. *)
Definition updated_row (row todo : Todo) : Todo :=
  {| id := id row; title := title todo; description := description todo;
     completed := completed todo; priority := priority todo;
     due_date := due_date todo; device_id := device_id row;
     created_at := created_at row; updated_at := updated_at todo;
     deleted := deleted todo; synced := synced row |}.

Definition updateTodo (db : DB) (todo : Todo) : DB :=
  alter (fun row => updated_row row todo) (id todo) db.

(** [getTodosByIds]: SELECT * FROM todos WHERE id IN (ids).  Every stored
    row whose key is listed, once, in table order. *)
Definition getTodosByIds (db : DB) (ids : list string) : list Todo :=
  filter (fun row => id row ∈ ids) (snd <$> map_to_list db).

(** ** The merge rule *)

(** The method [mergeTodo] as class [SyncEngine] defines it
    ("Implementation Details", sync-engine.js). *)
Module SyncEngine.

Definition mergeTodo (db : DB) (remoteTodo : Todo) : option DB :=
  match getTodoById db (id remoteTodo) with
  | None => insertTodo db remoteTodo
  | Some localTodo =>
      if (updated_at remoteTodo >? updated_at localTodo)%Z
      then Some (updateTodo db remoteTodo)
      else Some db
  end.

End SyncEngine.

(** The method [mergeTodo] as the section "Conflict Resolution" gives it,
    with the device-id tiebreak on equal timestamps. *)
Module ConflictResolution.

Definition mergeTodo (db : DB) (remoteTodo : Todo) : option DB :=
  match getTodoById db (id remoteTodo) with
  | None => insertTodo db remoteTodo
  | Some localTodo =>
      if (updated_at remoteTodo >? updated_at localTodo)%Z
      then Some (updateTodo db remoteTodo)
      else if (updated_at remoteTodo <? updated_at localTodo)%Z
      then Some db
      else if String.ltb (device_id remoteTodo) (device_id localTodo)
      then Some (updateTodo db remoteTodo)
      else Some db
  end.

End ConflictResolution.

(** [handleSyncData]: [for (const todo of todos) await this.mergeTodo(todo)].
    [this.mergeTodo] is bound late, so the method is an argument; a rejected
    merge aborts the loop.  (The log line and [checkSyncCompletion] that
    follow do not touch the table.) *)
Fixpoint handleSyncData (mergeTodo : DB -> Todo -> option DB)
    (db : DB) (todos : list Todo) : option DB :=
  match todos with
  | [] => Some db
  | todo :: rest =>
      match mergeTodo db todo with
      | Some db' => handleSyncData mergeTodo db' rest
      | None => None
      end
  end.

(** ** Clock skew *)

Definition oneDay : Z := 24 * 60 * 60 * 1000.

(** [validateTimestamp(ts)], with [now = Date.now()]: a timestamp more than
    a day away from the local clock is reported with [console.warn] and
    replaced by the current time. *)
Definition validateTimestamp (now ts : Z) : Z :=
  if (Z.abs (ts - now) >? oneDay)%Z then now else ts.

(** ** Answering REQUEST_SYNC and batch transfer *)

(** A JavaScript number that is an integer, or NaN / Infinity. *)
Inductive JsNumber := Finite (z : Z) | NonFinite.

(** [Math.floor(a / b)] and [Math.ceil(a / b)] on integers. *)
Definition floor_div (a b : Z) : JsNumber :=
  if (b =? 0)%Z then NonFinite else Finite (a / b)%Z.

Definition ceil_div (a b : Z) : JsNumber :=
  if (b =? 0)%Z then NonFinite else Finite (- ((- a) / b))%Z.

(** [Array.prototype.slice(first, last)]: negative indices count from the
    end, both are clamped to the array. *)
Definition slice {A : Type} (l : list A) (first last : Z) : list A :=
  let len := Z.of_nat (length l) in
  let k := if (first <? 0)%Z then Z.max (len + first) 0 else Z.min first len in
  let fin := if (last <? 0)%Z then Z.max (len + last) 0 else Z.min last len in
  take (Z.to_nat (fin - k)) (drop (Z.to_nat k) l).

(** The object handed to [sendMessage] for a SYNC_DATA message:
    [{type, payload: {todos, batchIndex, totalBatches}}]; a field that the
    object literal does not set is [None].  [sendMessage] adds [sessionId],
    [fromDevice] and [timestamp] and writes it to the socket. *)
Record Outgoing := mkOutgoing {
  out_type : string;
  out_todos : list Todo;
  out_batchIndex : option JsNumber;
  out_totalBatches : option JsNumber
}.

(** [handleSyncRequest(payload)]: the answer to REQUEST_SYNC [{needIds}];
    the list of messages passed to [sendMessage], in order. *)
Definition handleSyncRequest (db : DB) (needIds : list string) : list Outgoing :=
  let todos := getTodosByIds db needIds in
  [ {| out_type := "SYNC_DATA"; out_todos := todos;
       out_batchIndex := None; out_totalBatches := None |} ].

(** [sendTodosInBatches(todos, batchSize = 100)]:
    [for (let i = 0; i < todos.length; i += batchSize)].  The loop need not
    end (batchSize <= 0), so it runs on fuel: [None] is fuel exhausted. *)
Definition default_batchSize : Z := 100.

Fixpoint sendTodosInBatches_from (fuel : nat) (todos : list Todo)
    (batchSize i : Z) : option (list Outgoing) :=
  if (i <? Z.of_nat (length todos))%Z then
    match fuel with
    | O => None
    | S fuel' =>
        let batch := slice todos i (i + batchSize) in
        let m := {| out_type := "SYNC_DATA"; out_todos := batch;
                    out_batchIndex := Some (floor_div i batchSize);
                    out_totalBatches :=
                      Some (ceil_div (Z.of_nat (length todos)) batchSize) |} in
        match sendTodosInBatches_from fuel' todos batchSize (i + batchSize) with
        | Some ms => Some (m :: ms)
        | None => None
        end
    end
  else Some [].

Definition sendTodosInBatches (fuel : nat) (todos : list Todo) (batchSize : Z)
    : option (list Outgoing) :=
  sendTodosInBatches_from fuel todos batchSize 0.

(** ** The relay server (server/sync.go) *)

Module Relay.

(** [*websocket.Conn]: a connection is known by its pointer. *)
Definition Conn := positive.

(** A decoded JSON value, for the opaque [Payload map[string]interface{}].
    The relay passes the decoded struct on to [WriteJSON]; the text that
    [WriteJSON] encodes from it is not modelled. *)
#[warnings="-register-all"] Inductive JSON :=
| JNull
| JBool (b : bool)
| JNumber (z : Z)
| JString (s : string)
| JArray (items : list JSON)
| JObject (fields : list (string * JSON)).

(** [type SyncMessage struct].  A field absent from the JSON text decodes
    to Go's zero value: the empty string, [0], the nil map ([None]). *)
Record SyncMessage := mkSyncMessage {
  MsgType : string;
  MsgSessionID : string;
  FromDevice : string;
  ToDevice : string;
  Timestamp : Z;
  Payload : option (list (string * JSON))
}.

(** [time.Time] as nanoseconds since the epoch, [time.Duration] as an
    int64 count of nanoseconds; [Time.Sub] saturates at the int64 range. *)
Definition minDuration : Z := - 2 ^ 63.
Definition maxDuration : Z := 2 ^ 63 - 1.
Definition Minute : Z := 60 * 1000000000.

Definition Sub (t u : Z) : Z :=
  Z.max minDuration (Z.min maxDuration (t - u)).

Definition UnixMilli (t : Z) : Z := (t / 1000000)%Z.

(** [type SyncSession struct].  The per-session [mu] guards sections that
    make no call, so it is always free when taken and is left out. *)
Record SyncSession := mkSyncSession {
  SessionID : string;
  Connections : gmap string Conn;
  CreatedAt : Z
}.

(** [sync.RWMutex]: free, held by the writer, or held by [S n] readers.
    It is not reentrant: a taker that cannot proceed waits. *)
Inductive RWMutex := Unlocked | WLocked | RLocked (n : nat).

#[global] Instance RWMutex_eq_dec : EqDecision RWMutex.
Proof. solve_decision. Defined.

Definition Lock (mu : RWMutex) : option RWMutex :=
  match mu with Unlocked => Some WLocked | _ => None end.

Definition Unlock (mu : RWMutex) : RWMutex :=
  match mu with WLocked => Unlocked | _ => mu end.

Definition RLock (mu : RWMutex) : option RWMutex :=
  match mu with
  | Unlocked => Some (RLocked 0)
  | RLocked n => Some (RLocked (S n))
  | WLocked => None
  end.

Definition RUnlock (mu : RWMutex) : RWMutex :=
  match mu with
  | RLocked 0 => Unlocked
  | RLocked (S n) => RLocked n
  | _ => mu
  end.

(** The package-level [sessions] map and its [sessionsMu]. *)
Record Registry := mkRegistry {
  sessions : gmap string SyncSession;
  sessionsMu : RWMutex
}.

(** What a call does to the outside, in program order. *)
Inductive Event :=
| EvWriteJSON (conn : Conn) (msg : SyncMessage)
| EvClose (conn : Conn)
| EvDelete (sessionID : string)
| EvLog (level text arg : string).

(** A call returns, or waits on [sessionsMu] for a release that the
    calling goroutine itself would have to make. *)
Inductive Outcome :=
| Returns (reg : Registry) (evs : list Event)
| Blocks (reg : Registry) (evs : list Event).

Definition events_of (o : Outcome) : list Event :=
  match o with Returns _ evs | Blocks _ evs => evs end.

Definition registry_of (o : Outcome) : Registry :=
  match o with Returns reg _ | Blocks reg _ => reg end.

Definition with_mu (reg : Registry) (mu : RWMutex) : Registry :=
  {| sessions := sessions reg; sessionsMu := mu |}.

(** The body of the [for deviceID, conn := range session.Connections] loop
    of [relayMessage]; [werr conn] tells whether [conn.WriteJSON] fails. *)
Definition relay_to (werr : Conn -> bool) (fromDevice : string)
    (msg : SyncMessage) (entry : string * Conn) : list Event :=
  let '(deviceID, conn) := entry in
  if decide (deviceID ≠ fromDevice) then
    EvWriteJSON conn msg ::
      (if werr conn
       then [EvLog "ERROR" "Failed to relay message" deviceID]
       else [])
  else [].

(** [func relayMessage(sessionID, fromDevice string, msg *SyncMessage)] *)
Definition relayMessage (werr : Conn -> bool) (reg : Registry)
    (sessionID fromDevice : string) (msg : SyncMessage) : Outcome :=
  match RLock (sessionsMu reg) with
  | None => Blocks reg []
  | Some mu =>
      let found := sessions reg !! sessionID in
      let reg' := with_mu reg (RUnlock mu) in
      match found with
      | None => Returns reg' [EvLog "WARN" "Session not found" sessionID]
      | Some session =>
          Returns reg'
            (map_to_list (Connections session)
               ≫= relay_to werr fromDevice msg)
      end
  end.

(** [func handleJoin(sessionID, deviceID string, conn, msg)]: the write
    lock is held (deferred [Unlock]) across the call of [relayMessage]. *)
Definition handleJoin (now : Z) (werr : Conn -> bool) (reg : Registry)
    (sessionID deviceID : string) (conn : Conn) (msg : SyncMessage)
    : Outcome :=
  match Lock (sessionsMu reg) with
  | None => Blocks reg []
  | Some mu =>
      let '(session, evs0) :=
        match sessions reg !! sessionID with
        | Some session => (session, [])
        | None =>
            ({| SessionID := sessionID; Connections := ∅;
                CreatedAt := now |},
             [EvLog "INFO" "Created new sync session" sessionID])
        end in
      let session' :=
        {| SessionID := SessionID session;
           Connections := <[deviceID := conn]> (Connections session);
           CreatedAt := CreatedAt session |} in
      let reg1 :=
        {| sessions := <[sessionID := session']> (sessions reg);
           sessionsMu := mu |} in
      let evs1 := evs0 ++ [EvLog "INFO" "Device joined session" deviceID] in
      match relayMessage werr reg1 sessionID deviceID msg with
      | Returns reg2 evs2 =>
          Returns (with_mu reg2 (Unlock (sessionsMu reg2))) (evs1 ++ evs2)
      | Blocks reg2 evs2 => Blocks reg2 (evs1 ++ evs2)
      end
  end.

(** [func removeConnection(sessionID, deviceID string)] *)
Definition removeConnection (reg : Registry) (sessionID deviceID : string)
    : Outcome :=
  match Lock (sessionsMu reg) with
  | None => Blocks reg []
  | Some mu =>
      match sessions reg !! sessionID with
      | None => Returns (with_mu reg (Unlock mu)) []
      | Some session =>
          let session' :=
            {| SessionID := SessionID session;
               Connections := delete deviceID (Connections session);
               CreatedAt := CreatedAt session |} in
          let remainingDevices := size (Connections session') in
          let left := EvLog "INFO" "Device left session" deviceID in
          if decide (remainingDevices = 0%nat) then
            Returns
              {| sessions := delete sessionID (sessions reg);
                 sessionsMu := Unlock mu |}
              [left; EvDelete sessionID;
               EvLog "INFO" "Removed empty session" sessionID]
          else
            Returns
              {| sessions := <[sessionID := session']> (sessions reg);
                 sessionsMu := Unlock mu |}
              [left]
      end
  end.

(** [func cleanupSessions()], run by the ticker every 10 minutes, with
    [now = time.Now()]. *)
Definition expiry : Z := 15 * Minute.
Definition sweep_interval : Z := 10 * Minute.

Definition expired (now : Z) (session : SyncSession) : bool :=
  (Sub now (CreatedAt session) >? expiry)%Z.

Definition cleanup_step (now : Z)
    (st : gmap string SyncSession * list Event)
    (entry : string * SyncSession) : gmap string SyncSession * list Event :=
  let '(sessionID, session) := entry in
  if expired now session then
    (delete sessionID st.1,
     st.2 ++ (EvClose <$> (snd <$> map_to_list (Connections session)))
          ++ [EvDelete sessionID;
              EvLog "INFO" "Cleaned up expired session" sessionID])
  else st.

Definition cleanupSessions (now : Z) (reg : Registry) : Outcome :=
  match Lock (sessionsMu reg) with
  | None => Blocks reg []
  | Some mu =>
      let st := foldl (cleanup_step now) (sessions reg, [])
                  (map_to_list (sessions reg)) in
      Returns {| sessions := st.1; sessionsMu := Unlock mu |} st.2
  end.

(** One turn of the [for] loop of [syncWebSocketHandler] after
    [conn.ReadJSON] has decoded [msg]: the [switch msg.Type], which has
    no [default] case. *)
Definition relayed_types : list string :=
  ["METADATA_EXCHANGE"; "REQUEST_SYNC"; "SYNC_DATA"; "SYNC_COMPLETE";
   "ERROR"].

Definition pong (now : Z) (sessionID : string) : SyncMessage :=
  {| MsgType := "PONG"; MsgSessionID := sessionID; FromDevice := EmptyString;
     ToDevice := EmptyString; Timestamp := UnixMilli now; Payload := None |}.

Definition dispatch (now : Z) (werr : Conn -> bool) (reg : Registry)
    (conn : Conn) (msg : SyncMessage) : Outcome :=
  let sessionID := MsgSessionID msg in
  let deviceID := FromDevice msg in
  if decide (MsgType msg = "JOIN") then
    handleJoin now werr reg sessionID deviceID conn msg
  else if decide (MsgType msg ∈ relayed_types) then
    relayMessage werr reg sessionID deviceID msg
  else if decide (MsgType msg = "PING") then
    Returns reg [EvWriteJSON conn (pong now sessionID)]
  else Returns reg [].

(** [func syncWebSocketHandler] after the upgrade.  [reads] are the
    messages that [conn.ReadJSON] decoded, each with the server time at
    which it is handled, up to the first call that returns an error (the
    peer has closed the connection, or has sent a text that does not decode
    into [SyncMessage]).  That error ends the loop; then come
    [removeConnection(sessionID, deviceID)] with the identity of the last
    message decoded, and the deferred [conn.Close()]. *)
Definition then_ (evs : list Event) (o : Outcome) : Outcome :=
  match o with
  | Returns reg evs' => Returns reg (evs ++ evs')
  | Blocks reg evs' => Blocks reg (evs ++ evs')
  end.

Fixpoint handler_loop (werr : Conn -> bool) (reg : Registry) (conn : Conn)
    (sessionID deviceID : string) (reads : list (Z * SyncMessage))
    : Outcome :=
  match reads with
  | [] =>
      then_ [EvLog "ERROR" "Read message failed" EmptyString]
        (match removeConnection reg sessionID deviceID with
         | Returns reg' evs => Returns reg' (evs ++ [EvClose conn])
         | Blocks reg' evs => Blocks reg' evs
         end)
  | (now, msg) :: rest =>
      match dispatch now werr reg conn msg with
      | Returns reg' evs =>
          then_ evs
            (handler_loop werr reg' conn (MsgSessionID msg) (FromDevice msg)
               rest)
      | Blocks reg' evs => Blocks reg' evs
      end
  end.

Definition syncWebSocketHandler (werr : Conn -> bool) (reg : Registry)
    (conn : Conn) (reads : list (Z * SyncMessage)) : Outcome :=
  handler_loop werr reg conn EmptyString EmptyString reads.

(** What successive calls of [conn.ReadJSON] give, and the messages the loop
    gets to handle: those before the first error. *)
Inductive ReadResult :=
| Decoded (msg : SyncMessage)
| ReadError.

Fixpoint decoded_prefix (results : list (Z * ReadResult))
    : list (Z * SyncMessage) :=
  match results with
  | (now, Decoded msg) :: rest => (now, msg) :: decoded_prefix rest
  | _ => []
  end.

Definition serve (werr : Conn -> bool) (reg : Registry) (conn : Conn)
    (results : list (Z * ReadResult)) : Outcome :=
  syncWebSocketHandler werr reg conn (decoded_prefix results).

(** The connections a call wrote to, and a message with another
    [ToDevice]. *)
Definition written (evs : list Event) : list (Conn * SyncMessage) :=
  evs ≫= (fun ev =>
    match ev with EvWriteJSON conn msg => [(conn, msg)] | _ => [] end).

Definition set_ToDevice (toDevice : string) (msg : SyncMessage)
    : SyncMessage :=
  {| MsgType := MsgType msg; MsgSessionID := MsgSessionID msg;
     FromDevice := FromDevice msg; ToDevice := toDevice;
     Timestamp := Timestamp msg; Payload := Payload msg |}.

(** The age of a session at [now], and the registry invariant that no
    session is without participants. *)
Definition age (now : Z) (session : SyncSession) : Z :=
  (now - CreatedAt session)%Z.

Definition no_empty_session (m : gmap string SyncSession) : Prop :=
  forall sessionID session,
    m !! sessionID = Some session -> Connections session ≠ ∅.

End Relay.

(** ** Reading the merge row by row *)

(** When does the incoming version replace the stored one: the test of
    [SyncEngine.mergeTodo], and the tests of [ConflictResolution.mergeTodo]. *)
Definition lww_wins (localTodo remoteTodo : Todo) : bool :=
  (updated_at remoteTodo >? updated_at localTodo)%Z.

Definition tiebreak_wins (localTodo remoteTodo : Todo) : bool :=
  if (updated_at remoteTodo >? updated_at localTodo)%Z then true
  else if (updated_at remoteTodo <? updated_at localTodo)%Z then false
  else String.ltb (device_id remoteTodo) (device_id localTodo).

(** The row stored under [id remoteTodo] after a merge. *)
Definition merge_row (wins : Todo -> Todo -> bool)
    (stored : option Todo) (remoteTodo : Todo) : Todo :=
  match stored with
  | None => inserted_row remoteTodo
  | Some localTodo =>
      if wins localTodo remoteTodo then updated_row localTodo remoteTodo
      else localTodo
  end.

Definition merge_store (wins : Todo -> Todo -> bool) (db : DB)
    (remoteTodo : Todo) : DB :=
  <[id remoteTodo := merge_row wins (db !! id remoteTodo) remoteTodo]> db.

(** The versions of record [k] in a batch, and the row left by merging a
    list of versions one after the other. *)
Definition versions_of (k : string) (todos : list Todo) : list Todo :=
  filter (fun todo => id todo = k) todos.

Definition merge_rows (wins : Todo -> Todo -> bool)
    (stored : option Todo) (versions : list Todo) : option Todo :=
  foldl (fun o todo => Some (merge_row wins o todo)) stored versions.

(** The columns a merge leaves alone in a stored row. *)
Definition same_frame (before after : Todo) : Prop :=
  id after = id before /\ created_at after = created_at before /\
  device_id after = device_id before /\ synced after = synced before.

(** The columns an overwrite takes from the incoming version. *)
Definition same_payload (version row : Todo) : Prop :=
  title row = title version /\ description row = description version /\
  completed row = completed version /\ priority row = priority version /\
  due_date row = due_date version /\ updated_at row = updated_at version /\
  deleted row = deleted version.

(** ** Sample data *)

(** Two versions of one record with equal [updated_at], held by two
    replicas; the incoming one has the smaller [device_id]. *)
Definition tie_local : Todo :=
  {| id := "rec-1"; title := "Buy 2% milk"; description := None;
     completed := 0; priority := "medium"; due_date := None;
     device_id := "device-b"; created_at := 50; updated_at := 100;
     deleted := 0; synced := 0 |}.

Definition tie_incoming : Todo :=
  {| id := "rec-1"; title := "Buy whole milk"; description := None;
     completed := 1; priority := "high"; due_date := None;
     device_id := "device-a"; created_at := 40; updated_at := 100;
     deleted := 0; synced := 0 |}.

Definition tie_db : DB := {[ "rec-1" := tie_local ]}.

(** A later edit of the same record, stamped long before the local clock
    [skewed_now] (milliseconds). *)
Definition newer_incoming : Todo :=
  {| id := "rec-1"; title := "Buy oat milk"; description := Some "2 l";
     completed := 0; priority := "low"; due_date := Some 900%Z;
     device_id := "device-c"; created_at := 45; updated_at := 200;
     deleted := 1; synced := 1 |}.

Definition skewed_now : Z := 1700000000000.


(** A replica that stores 250 records, and a REQUEST_SYNC for all of them. *)
Definition sample_id (n : nat) : string := "rec-" +:+ pretty n.

Definition sample_todo (n : nat) : Todo :=
  {| id := sample_id n; title := "todo"; description := None;
     completed := 0; priority := "medium"; due_date := None;
     device_id := "device-a"; created_at := Z.of_nat n;
     updated_at := Z.of_nat n; deleted := 0; synced := 0 |}.

Definition sample_ids : list string := sample_id <$> seq 0 250.

Definition sample_db : DB :=
  list_to_map ((fun n => (sample_id n, sample_todo n)) <$> seq 0 250).

(** The batch message that [sendTodosInBatches] builds. *)
Definition batch_message (batch : list Todo) (index total : Z) : Outgoing :=
  {| out_type := "SYNC_DATA"; out_todos := batch;
     out_batchIndex := Some (Finite index);
     out_totalBatches := Some (Finite total) |}.

(** A registry with two sessions: [A] with devices [d1], [d2], [d4] and,
    created two minutes later, [B] with device [d3]. *)
Definition session_A : Relay.SyncSession :=
  {| Relay.SessionID := "A";
     Relay.Connections :=
       {[ "d1" := 1%positive; "d2" := 2%positive; "d4" := 4%positive ]};
     Relay.CreatedAt := 0 |}.

Definition session_B : Relay.SyncSession :=
  {| Relay.SessionID := "B";
     Relay.Connections := {[ "d3" := 3%positive ]};
     Relay.CreatedAt := 2 * Relay.Minute |}.

Definition sample_registry : Relay.Registry :=
  {| Relay.sessions := {[ "A" := session_A; "B" := session_B ]};
     Relay.sessionsMu := Relay.Unlocked |}.

(** The time at which [session_A] is 16 and [session_B] 14 minutes old. *)
Definition sweep_time : Z := 16 * Relay.Minute.

(** A SYNC_DATA message of [d1] in session [A], addressed to [d2]. *)
Definition sample_message : Relay.SyncMessage :=
  {| Relay.MsgType := "SYNC_DATA"; Relay.MsgSessionID := "A";
     Relay.FromDevice := "d1"; Relay.ToDevice := "d2";
     Relay.Timestamp := 1698765432000; Relay.Payload := Some [] |}.

(** A message of an unknown type, and one without [sessionId]. *)
Definition bogus_message : Relay.SyncMessage :=
  {| Relay.MsgType := "BOGUS"; Relay.MsgSessionID := "A";
     Relay.FromDevice := "d1"; Relay.ToDevice := EmptyString;
     Relay.Timestamp := 1698765432000; Relay.Payload := None |}.

Definition no_session_message : Relay.SyncMessage :=
  {| Relay.MsgType := "METADATA_EXCHANGE"; Relay.MsgSessionID := EmptyString;
     Relay.FromDevice := "d1"; Relay.ToDevice := EmptyString;
     Relay.Timestamp := 1698765432000; Relay.Payload := Some [] |}.

(** A registry in which devices have joined without a [sessionId]. *)
Definition unnamed_session : Relay.SyncSession :=
  {| Relay.SessionID := EmptyString;
     Relay.Connections := {[ "d1" := 1%positive; "d2" := 2%positive ]};
     Relay.CreatedAt := 0 |}.

Definition unnamed_registry : Relay.Registry :=
  {| Relay.sessions := {[ EmptyString := unnamed_session ]};
     Relay.sessionsMu := Relay.Unlocked |}.

Definition no_write_error : Relay.Conn -> bool := fun _ => false.

(** A session that holds one connection under two device ids. *)
Definition shared_session : Relay.SyncSession :=
  {| Relay.SessionID := "A";
     Relay.Connections := {[ "d1" := 1%positive; "d2" := 1%positive ]};
     Relay.CreatedAt := 0 |}.

Definition shared_registry : Relay.Registry :=
  {| Relay.sessions := {[ "A" := shared_session ]};
     Relay.sessionsMu := Relay.Unlocked |}.

(** A message sent over the connection of [d1] that names [d2] as its
    sender. *)
Definition spoofed_message : Relay.SyncMessage :=
  {| Relay.MsgType := "SYNC_COMPLETE"; Relay.MsgSessionID := "A";
     Relay.FromDevice := "d2"; Relay.ToDevice := EmptyString;
     Relay.Timestamp := 1698765432000; Relay.Payload := Some [] |}.

(** ** The rest of the sync engine *)

(** [getAllTodoIds]: SELECT id FROM todos ORDER BY id.  The ids of all rows,
    tombstones included, in the byte order of SQLite's TEXT comparison. *)
Definition getAllTodoIds (db : DB) : list string :=
  merge_sort String.le (id <$> (snd <$> map_to_list db)).

(** [getSyncMetadata]: SELECT MAX(id), MAX(updated_at), COUNT( * ) FROM todos
    WHERE deleted = 0, then [topId || null], [lastModified || 0],
    [todoCount || 0]: an aggregate over no row is NULL, and the empty string
    and 0 are falsy as well. *)
Record SyncMetadata := mkSyncMetadata {
  topId : option string;
  lastModified : Z;
  todoCount : Z
}.

Definition active_rows (db : DB) : list Todo :=
  filter (fun row => deleted row = 0%Z) (snd <$> map_to_list db).

Definition max_text (l : list string) : option string :=
  foldr (fun s acc =>
           match acc with
           | None => Some s
           | Some m => if String.ltb m s then Some s else Some m
           end) None l.

Definition max_integer (l : list Z) : option Z :=
  foldr (fun z acc =>
           match acc with
           | None => Some z
           | Some m => Some (Z.max z m)
           end) None l.

Definition getSyncMetadata (db : DB) : SyncMetadata :=
  let rows := active_rows db in
  {| topId :=
       match max_text (id <$> rows) with
       | Some s => if decide (s = EmptyString) then None else Some s
       | None => None
       end;
     lastModified := default 0%Z (max_integer (updated_at <$> rows));
     todoCount := Z.of_nat (length rows) |}.

(** What a method of the engine does besides reading the table:
    [sendMessage({type, payload})], the UPDATE of [device_info.last_sync],
    [ws.close()]. *)
Inductive Payload :=
| NeedIds (needIds : list string)
| Todos (todos : list Todo)
| Complete (status : string) (timestamp : Z).

Inductive Effect :=
| SendMessage (type : string) (payload : Payload)
| SetLastSync (timestamp : Z)
| CloseSocket.

(** [completeSyncSession], with the two readings of [Date.now()]. *)
Definition completeSyncSession (now1 now2 : Z) : list Effect :=
  [ SendMessage "SYNC_COMPLETE" (Complete "success" now1);
    SetLastSync now2;
    CloseSocket ].

(** [handleMetadataExchange(remoteMetadata)], with
    [remoteTodoIds = remoteMetadata.todoIds]. *)
Definition needFromRemote (myTodoIds remoteTodoIds : list string)
    : list string :=
  filter (fun k => k ∉ myTodoIds) remoteTodoIds.

Definition remoteNeeds (myTodoIds remoteTodoIds : list string)
    : list string :=
  filter (fun k => k ∉ remoteTodoIds) myTodoIds.

Definition handleMetadataExchange (now1 now2 : Z) (db : DB)
    (remoteTodoIds : list string) : list Effect :=
  let myTodoIds := getAllTodoIds db in
  let need := needFromRemote myTodoIds remoteTodoIds in
  let offer := remoteNeeds myTodoIds remoteTodoIds in
  (if decide (0 < length need)%nat
   then [SendMessage "REQUEST_SYNC" (NeedIds need)] else []) ++
  (if decide (0 < length offer)%nat
   then [SendMessage "SYNC_DATA" (Todos (getTodosByIds db offer))] else []) ++
  (if decide (length need = 0%nat /\ length offer = 0%nat)
   then completeSyncSession now1 now2 else []).

(** ** The QR code payload *)

(** The parsed QR payload; a field that the JSON text lacks is [None]. *)
Record QRData := mkQRData {
  qr_sessionId : option string;
  qr_deviceId : option string;
  qr_topId : option string;
  qr_lastModified : Z;
  qr_todoCount : Z;
  qr_wsUrl : option string;
  qr_expires : option Z
}.

(** [!field] for a string field: missing or empty. *)
Definition missing (field : option string) : bool :=
  match field with
  | None => true
  | Some s => if decide (s = EmptyString) then true else false
  end.

(** [Date.now() > qrData.expires]; a comparison with [undefined] is false. *)
Definition past_expiry (now : Z) (expires : option Z) : bool :=
  match expires with
  | Some e => (now >? e)%Z
  | None => false
  end.

(** [validateQRData(qrData)]: [true], or the message of the error thrown. *)
Definition validateQRData (now : Z) (qrData : QRData) : string + unit :=
  if missing (qr_sessionId qrData) || missing (qr_deviceId qrData)
     || missing (qr_wsUrl qrData)
  then inl "Invalid QR code: missing required fields"
  else if past_expiry now (qr_expires qrData)
  then inl "QR code has expired. Please generate a new one."
  else inr tt.

(** The [qrData] object of [generateSyncQR], for the session id drawn by
    [uuidv4()], the page's host and the clock. *)
Definition qr_lifetime : Z := 5 * 60 * 1000.

Definition generateSyncQR_data (sessionId deviceId host : string) (db : DB)
    (now : Z) : QRData :=
  let metadata := getSyncMetadata db in
  {| qr_sessionId := Some sessionId;
     qr_deviceId := Some deviceId;
     qr_topId := topId metadata;
     qr_lastModified := lastModified metadata;
     qr_todoCount := todoCount metadata;
     qr_wsUrl := Some ("ws://" +:+ host +:+ "/sync");
     qr_expires := Some (now + qr_lifetime)%Z |}.

(** ** The asset handler (server/routes.go) *)

(** [assetsWithType]: [strings.Split(r.URL.Path, ".")]; with more than one
    part, the last part is looked up in the MIME table and sets the
    Content-Type header.  [last_part] is that last part and tells whether a
    separator was seen. *)
Fixpoint last_part (path : string) : bool * string :=
  match path with
  | EmptyString => (false, EmptyString)
  | String c rest =>
      let '(found, part) := last_part rest in
      if found then (true, part)
      else if Ascii.eqb c (Ascii.ascii_of_nat 46) then (true, rest)
      else (false, String c part)
  end.

Fixpoint contains_dot (s : string) : bool :=
  match s with
  | EmptyString => false
  | String c rest => Ascii.eqb c (Ascii.ascii_of_nat 46) || contains_dot rest
  end.

Definition mimeType (ext : string) : option string :=
  if decide (ext = "wasm") then Some "wasm"
  else if decide (ext = "js") then Some "javascript"
  else None.

Definition assets_content_type (path : string) : option string :=
  let '(found, ext) := last_part path in
  if found then
    match mimeType ext with
    | Some mime => Some ("application/" +:+ mime)
    | None => None
    end
  else None.

(** ** Well-formed tables *)

(** A table is keyed by the [id] column of its rows. *)
Definition keyed_by_id (db : DB) : Prop :=
  forall k row, db !! k = Some row -> id row = k.

(** Two rows with the same payload columns. *)
Definition payload_eq (a b : Todo) : Prop :=
  title a = title b /\ description a = description b /\
  completed a = completed b /\ priority a = priority b /\
  due_date a = due_date b /\ updated_at a = updated_at b /\
  deleted a = deleted b.
(** ** Theorems: the merge rule *)

Lemma updateTodo_insert (db : DB) (localTodo remoteTodo : Todo) :
  db !! id remoteTodo = Some localTodo ->
  updateTodo db remoteTodo =
    <[id remoteTodo := updated_row localTodo remoteTodo]> db.
Proof.
  intros Hl. unfold updateTodo. apply map_eq. intros k.
  destruct (decide (k = id remoteTodo)) as [->|Hne].
  - rewrite lookup_alter_eq, lookup_insert_eq, Hl. reflexivity.
  - rewrite lookup_alter_ne, lookup_insert_ne by congruence. reflexivity.
Qed.

(** Both definitions of [mergeTodo] always succeed, and rewrite exactly the
    row of the incoming id. *)
Lemma SyncEngine_mergeTodo_store (db : DB) (remoteTodo : Todo) :
  SyncEngine.mergeTodo db remoteTodo = Some (merge_store lww_wins db remoteTodo).
Proof.
  unfold SyncEngine.mergeTodo, merge_store, getTodoById, insertTodo, lww_wins.
  destruct (db !! id remoteTodo) as [l|] eqn:Hl; simpl; [|reflexivity].
  destruct (updated_at remoteTodo >? updated_at l)%Z.
  - f_equal. by apply updateTodo_insert.
  - f_equal. symmetry. by apply insert_id.
Qed.

Lemma ConflictResolution_mergeTodo_store (db : DB) (remoteTodo : Todo) :
  ConflictResolution.mergeTodo db remoteTodo =
    Some (merge_store tiebreak_wins db remoteTodo).
Proof.
  unfold ConflictResolution.mergeTodo, merge_store, getTodoById, insertTodo,
    tiebreak_wins.
  destruct (db !! id remoteTodo) as [l|] eqn:Hl; simpl; [|reflexivity].
  destruct (updated_at remoteTodo >? updated_at l)%Z.
  { f_equal. by apply updateTodo_insert. }
  destruct (updated_at remoteTodo <? updated_at l)%Z.
  { f_equal. symmetry. by apply insert_id. }
  destruct (String.ltb (device_id remoteTodo) (device_id l)).
  - f_equal. by apply updateTodo_insert.
  - f_equal. symmetry. by apply insert_id.
Qed.

Lemma merge_store_lookup (wins : Todo -> Todo -> bool) (db : DB)
    (remoteTodo : Todo) (k : string) :
  merge_store wins db remoteTodo !! k =
    if decide (k = id remoteTodo)
    then Some (merge_row wins (db !! k) remoteTodo)
    else db !! k.
Proof.
  unfold merge_store. destruct (decide (k = id remoteTodo)) as [->|Hne].
  - by rewrite lookup_insert_eq.
  - by rewrite lookup_insert_ne.
Qed.

Lemma merge_row_frame (wins : Todo -> Todo -> bool) (localTodo remoteTodo : Todo) :
  same_frame localTodo (merge_row wins (Some localTodo) remoteTodo).
Proof.
  unfold merge_row, same_frame. destruct (wins localTodo remoteTodo); simpl; auto.
Qed.

Lemma String_ltb_asym (a b : string) :
  String.ltb a b = true -> String.ltb b a = false.
Proof.
  unfold String.ltb. rewrite (String.compare_antisym b a).
  destruct (String.compare a b); simpl; congruence.
Qed.

(** On a tie [SyncEngine.mergeTodo] keeps the stored row, whatever the two
    device ids are. *)
Lemma SyncEngine_mergeTodo_tie (db : DB) (localTodo remoteTodo : Todo) :
  db !! id remoteTodo = Some localTodo ->
  updated_at remoteTodo = updated_at localTodo ->
  SyncEngine.mergeTodo db remoteTodo = Some db.
Proof.
  intros Hl Ht. unfold SyncEngine.mergeTodo, getTodoById. rewrite Hl, Ht.
  by rewrite Z.gtb_ltb, Z.ltb_irrefl.
Qed.

(** Last write wins, in [SyncEngine.mergeTodo]: a strictly newer incoming
    version overwrites, any other is dropped. *)
Lemma SyncEngine_mergeTodo_rule (db : DB) (localTodo remoteTodo : Todo) :
  db !! id remoteTodo = Some localTodo ->
  ((updated_at remoteTodo > updated_at localTodo)%Z ->
   SyncEngine.mergeTodo db remoteTodo =
     Some (<[id remoteTodo := updated_row localTodo remoteTodo]> db)) /\
  ((updated_at remoteTodo <= updated_at localTodo)%Z ->
   SyncEngine.mergeTodo db remoteTodo = Some db).
Proof.
  intros Hl. unfold SyncEngine.mergeTodo, getTodoById. rewrite Hl. split.
  - intros H. apply Z.gtb_gt in H. rewrite H. f_equal.
    by apply updateTodo_insert.
  - intros H. rewrite Z.gtb_ltb. by apply Z.ltb_ge in H as ->.
Qed.

(** The rule of the "Conflict Resolution" section, case by case. *)
Lemma ConflictResolution_mergeTodo_rule (db : DB) (localTodo remoteTodo : Todo) :
  db !! id remoteTodo = Some localTodo ->
  ((updated_at remoteTodo > updated_at localTodo)%Z ->
   ConflictResolution.mergeTodo db remoteTodo =
     Some (<[id remoteTodo := updated_row localTodo remoteTodo]> db)) /\
  ((updated_at remoteTodo < updated_at localTodo)%Z ->
   ConflictResolution.mergeTodo db remoteTodo = Some db) /\
  (updated_at remoteTodo = updated_at localTodo ->
   String.ltb (device_id remoteTodo) (device_id localTodo) = true ->
   ConflictResolution.mergeTodo db remoteTodo =
     Some (<[id remoteTodo := updated_row localTodo remoteTodo]> db)) /\
  (updated_at remoteTodo = updated_at localTodo ->
   String.ltb (device_id localTodo) (device_id remoteTodo) = true ->
   ConflictResolution.mergeTodo db remoteTodo = Some db).
Proof.
  intros Hl. rewrite ConflictResolution_mergeTodo_store.
  unfold merge_store, merge_row, tiebreak_wins. rewrite Hl.
  repeat split.
  - intros H. apply Z.gtb_gt in H. by rewrite H.
  - intros H. assert ((updated_at remoteTodo >? updated_at localTodo)%Z = false)
      as -> by (rewrite Z.gtb_ltb; apply Z.ltb_ge; lia).
    apply Z.ltb_lt in H. rewrite H. f_equal. by apply insert_id.
  - intros -> ->. by rewrite Z.gtb_ltb, Z.ltb_irrefl.
  - intros -> H. apply String_ltb_asym in H.
    rewrite Z.gtb_ltb, Z.ltb_irrefl, H. f_equal. by apply insert_id.
Qed.

(** With the tiebreak, two replicas that hold versions [a] and [b] of one
    record with equal [updated_at], [a] from the smaller device id, both end
    with the payload of [a] once each has merged the other's version. *)
Lemma ConflictResolution_tie_converges (dbA dbB : DB) (a b : Todo) :
  id a = id b ->
  dbA !! id a = Some a -> dbB !! id b = Some b ->
  updated_at a = updated_at b ->
  String.ltb (device_id a) (device_id b) = true ->
  exists dbA' dbB' rowA rowB,
    ConflictResolution.mergeTodo dbA b = Some dbA' /\
    ConflictResolution.mergeTodo dbB a = Some dbB' /\
    dbA' !! id a = Some rowA /\ dbB' !! id a = Some rowB /\
    same_payload a rowA /\ same_payload a rowB.
Proof.
  intros Hid HA HB Ht Hd.
  rewrite <- Hid in HB. pose proof HA as HA'. rewrite Hid in HA'.
  destruct (ConflictResolution_mergeTodo_rule dbA a b HA') as (_ & _ & _ & Hkeep).
  pose proof HB as HB'.
  destruct (ConflictResolution_mergeTodo_rule dbB b a HB') as (_ & _ & Hwin & _).
  exists dbA, (<[id a := updated_row b a]> dbB), a, (updated_row b a).
  split; [apply Hkeep; [by symmetry | done]|].
  split; [by apply Hwin|].
  split; [done|]. split; [by rewrite lookup_insert_eq|].
  unfold same_payload; simpl. repeat split; reflexivity.
Qed.

(** C1 (code defect).  The claim: on equal [updated_at] the version with
    the lexicographically smaller [device_id] wins.  [mergeTodo] of class
    [SyncEngine] has no tiebreak: at a stored row with [updated_at = 100],
    [device_id = "device-b"] and an incoming version with [updated_at = 100],
    [device_id = "device-a"] it keeps the stored row, while the [mergeTodo]
    of the "Conflict Resolution" section overwrites it with the incoming
    payload as the claim says. *)
Theorem C1_SyncEngine_mergeTodo_lacks_tiebreak :
  id tie_incoming = id tie_local /\
  updated_at tie_incoming = updated_at tie_local /\
  String.ltb (device_id tie_incoming) (device_id tie_local) = true /\
  SyncEngine.mergeTodo tie_db tie_incoming = Some tie_db /\
  ConflictResolution.mergeTodo tie_db tie_incoming =
    Some {[ "rec-1" := updated_row tie_local tie_incoming ]} /\
  title (updated_row tie_local tie_incoming) = "Buy whole milk".
Proof.
  repeat apply conj; vm_compute; reflexivity.
Qed.

(** ** Theorems: a batch, row by row *)

Lemma handleSyncData_store (mergeTodo : DB -> Todo -> option DB)
    (wins : Todo -> Todo -> bool) :
  (forall db todo, mergeTodo db todo = Some (merge_store wins db todo)) ->
  forall todos db,
    handleSyncData mergeTodo db todos = Some (foldl (merge_store wins) db todos).
Proof.
  intros Hm todos. induction todos as [|todo rest IH]; intros db; simpl.
  - reflexivity.
  - rewrite Hm. apply IH.
Qed.

Lemma foldl_merge_store_lookup (wins : Todo -> Todo -> bool) (k : string)
    (todos : list Todo) (db : DB) :
  foldl (merge_store wins) db todos !! k =
    merge_rows wins (db !! k) (versions_of k todos).
Proof.
  revert db. induction todos as [|todo rest IH]; intros db; simpl.
  - reflexivity.
  - rewrite IH, merge_store_lookup. unfold versions_of.
    rewrite filter_cons. fold (versions_of k rest).
    destruct (decide (id todo = k)) as [Hk|Hk]; case_decide; try congruence;
      reflexivity.
Qed.

Lemma merge_rows_snoc (wins : Todo -> Todo -> bool) (o : option Todo)
    (versions : list Todo) (todo : Todo) :
  merge_rows wins o (versions ++ [todo]) =
    Some (merge_row wins (merge_rows wins o versions) todo).
Proof. unfold merge_rows. by rewrite foldl_app. Qed.

Lemma merge_rows_cons (wins : Todo -> Todo -> bool) (o : option Todo)
    (todo : Todo) (versions : list Todo) :
  merge_rows wins o (todo :: versions) =
    merge_rows wins (Some (merge_row wins o todo)) versions.
Proof. reflexivity. Qed.

Lemma merge_rows_None (wins : Todo -> Todo -> bool) (o : option Todo)
    (versions : list Todo) :
  merge_rows wins o versions = None -> versions = [] /\ o = None.
Proof.
  destruct versions as [|todo rest _] using rev_ind; [done|].
  by rewrite merge_rows_snoc.
Qed.

Section Wins.

Variable wins : Todo -> Todo -> bool.

(** The incoming version replaces the stored one only if it is not older,
    and is dropped only if it is not newer. *)
Hypothesis wins_by_time : forall localTodo remoteTodo,
  if wins localTodo remoteTodo
  then (updated_at localTodo <= updated_at remoteTodo)%Z
  else (updated_at remoteTodo <= updated_at localTodo)%Z.

Lemma merge_row_ge_remote (o : option Todo) (todo : Todo) :
  (updated_at todo <= updated_at (merge_row wins o todo))%Z.
Proof.
  destruct o as [l|]; simpl; [|lia].
  pose proof (wins_by_time l todo). destruct (wins l todo); simpl; lia.
Qed.

Lemma merge_row_ge_local (l todo : Todo) :
  (updated_at l <= updated_at (merge_row wins (Some l) todo))%Z.
Proof.
  simpl. pose proof (wins_by_time l todo). destruct (wins l todo); simpl; lia.
Qed.

Lemma merge_rows_ge_local (versions : list Todo) (x s : Todo) :
  merge_rows wins (Some x) versions = Some s ->
  (updated_at x <= updated_at s)%Z.
Proof.
  revert x. induction versions as [|todo rest IH]; intros x.
  - intros [= ->]. lia.
  - rewrite merge_rows_cons. intros H. apply IH in H.
    pose proof (merge_row_ge_local x todo). lia.
Qed.

(** After a batch the stored row is at least as recent as every version
    the batch held. *)
Lemma merge_rows_ge (versions : list Todo) (o : option Todo) (s : Todo) :
  merge_rows wins o versions = Some s ->
  forall todo, todo ∈ versions -> (updated_at todo <= updated_at s)%Z.
Proof.
  revert o. induction versions as [|v rest IH]; intros o H todo Hin.
  - by apply elem_of_nil in Hin.
  - rewrite merge_rows_cons in H. apply elem_of_cons in Hin as [->|Hin].
    + apply merge_rows_ge_local in H.
      pose proof (merge_row_ge_remote o v). lia.
    + by eapply IH.
Qed.

End Wins.

Lemma lww_wins_by_time (localTodo remoteTodo : Todo) :
  if lww_wins localTodo remoteTodo
  then (updated_at localTodo <= updated_at remoteTodo)%Z
  else (updated_at remoteTodo <= updated_at localTodo)%Z.
Proof.
  unfold lww_wins.
  destruct (Z.gtb_spec (updated_at remoteTodo) (updated_at localTodo)); lia.
Qed.

Lemma tiebreak_wins_by_time (localTodo remoteTodo : Todo) :
  if tiebreak_wins localTodo remoteTodo
  then (updated_at localTodo <= updated_at remoteTodo)%Z
  else (updated_at remoteTodo <= updated_at localTodo)%Z.
Proof.
  unfold tiebreak_wins.
  destruct (Z.gtb_spec (updated_at remoteTodo) (updated_at localTodo)); [lia|].
  destruct (Z.ltb_spec (updated_at remoteTodo) (updated_at localTodo)); [lia|].
  destruct (String.ltb _ _); lia.
Qed.

(** Re-sending versions none of which is newer than the stored row changes
    nothing under the rule of [SyncEngine.mergeTodo]. *)
Lemma lww_rows_fixed (versions : list Todo) (s : Todo) :
  (forall todo, todo ∈ versions -> (updated_at todo <= updated_at s)%Z) ->
  merge_rows lww_wins (Some s) versions = Some s.
Proof.
  induction versions as [|v rest IH]; intros Hle; [reflexivity|].
  rewrite merge_rows_cons. unfold merge_row.
  assert (lww_wins s v = false) as ->.
  { unfold lww_wins. rewrite Z.gtb_ltb. apply Z.ltb_ge. apply Hle. by left. }
  apply IH. intros todo Hin. apply Hle. by right.
Qed.

Lemma lww_rows_idempotent (o : option Todo) (versions : list Todo) :
  merge_rows lww_wins (merge_rows lww_wins o versions) versions =
    merge_rows lww_wins o versions.
Proof.
  destruct (merge_rows lww_wins o versions) as [s|] eqn:Hs.
  - apply lww_rows_fixed. eapply merge_rows_ge; [apply lww_wins_by_time|done].
  - apply merge_rows_None in Hs as [-> ->]. reflexivity.
Qed.

(** The same for the rule with the tiebreak: here a version that ties with
    the stored row may rewrite the payload again, and the last such version
    of the batch is the one whose payload stays. *)
Lemma String_ltb_irrefl (a : string) : String.ltb a a = false.
Proof.
  destruct (String.ltb a a) eqn:H; [|reflexivity].
  pose proof (String_ltb_asym a a H). congruence.
Qed.

Lemma updated_row_frame (x y todo : Todo) :
  same_frame x y -> updated_row y todo = updated_row x todo.
Proof.
  intros (Hid & Hc & Hd & Hs). unfold updated_row.
  by rewrite Hid, Hc, Hd, Hs.
Qed.

Lemma same_frame_refl (x : Todo) : same_frame x x.
Proof. by unfold same_frame. Qed.

Lemma same_frame_trans (x y z : Todo) :
  same_frame x y -> same_frame y z -> same_frame x z.
Proof. unfold same_frame. intuition congruence. Qed.

Lemma tiebreak_rows_similar (versions : list Todo) (x : Todo) :
  (forall todo, todo ∈ versions -> (updated_at todo <= updated_at x)%Z) ->
  exists y, merge_rows tiebreak_wins (Some x) versions = Some y /\
            same_frame x y /\ updated_at y = updated_at x.
Proof.
  revert x. induction versions as [|v rest IH]; intros x Hle.
  - exists x. split; [reflexivity|]. split; [apply same_frame_refl|reflexivity].
  - rewrite merge_rows_cons.
    assert (updated_at v <= updated_at x)%Z as Hv by (apply Hle; by left).
    assert (same_frame x (merge_row tiebreak_wins (Some x) v) /\
            updated_at (merge_row tiebreak_wins (Some x) v) = updated_at x)
      as [Hf Ht].
    { split; [apply merge_row_frame|]. unfold merge_row.
      pose proof (tiebreak_wins_by_time x v).
      destruct (tiebreak_wins x v); simpl; lia. }
    destruct (IH (merge_row tiebreak_wins (Some x) v)) as (y & Hy & Hfy & Hty).
    { intros todo Hin. rewrite Ht. apply Hle. by right. }
    exists y. split; [done|]. split; [by eapply same_frame_trans|lia].
Qed.

Lemma tiebreak_rows_fixed_older (versions : list Todo) (x : Todo) :
  (forall todo, todo ∈ versions -> (updated_at todo < updated_at x)%Z) ->
  merge_rows tiebreak_wins (Some x) versions = Some x.
Proof.
  induction versions as [|v rest IH]; intros Hlt; [reflexivity|].
  rewrite merge_rows_cons. unfold merge_row.
  assert (tiebreak_wins x v = false) as ->.
  { assert (updated_at v < updated_at x)%Z as Hv by (apply Hlt; by left).
    unfold tiebreak_wins.
    destruct (Z.gtb_spec (updated_at v) (updated_at x)); [lia|].
    destruct (Z.ltb_spec (updated_at v) (updated_at x)); [reflexivity|lia]. }
  apply IH. intros todo Hin. apply Hlt. by right.
Qed.

Lemma tiebreak_rows_fixed (versions : list Todo) (o : option Todo) (s : Todo) :
  merge_rows tiebreak_wins o versions = Some s ->
  merge_rows tiebreak_wins (Some s) versions = Some s.
Proof.
  revert o s. induction versions as [|v rest IH] using rev_ind; intros o s Hs.
  { reflexivity. }
  rewrite merge_rows_snoc in Hs. injection Hs as Hs.
  rewrite merge_rows_snoc. f_equal.
  destruct (merge_rows tiebreak_wins o rest) as [s'|] eqn:Hrest.
  - (* the batch had reached [s'] before its last version [v] *)
    pose proof (merge_rows_ge _ tiebreak_wins_by_time _ _ _ Hrest) as Hge.
    simpl in Hs. destruct (tiebreak_wins s' v) eqn:Hw.
    + (* [v] replaced the payload of [s'] *)
      assert (updated_at s' <= updated_at s)%Z as Hle.
      { pose proof (tiebreak_wins_by_time s' v) as H. rewrite Hw in H.
        subst s. simpl. lia. }
      destruct (tiebreak_rows_similar rest s) as (y & Hy & Hfy & Hty).
      { intros todo Hin. specialize (Hge todo Hin). lia. }
      rewrite Hy. simpl. destruct (tiebreak_wins y v) eqn:Hwy.
      * rewrite (updated_row_frame s y v Hfy). by subst s.
      * (* no second overwrite: then [v] was strictly newer than [s'] *)
        assert (updated_at s' < updated_at s)%Z as Hlt.
        { destruct (Z.eq_dec (updated_at s') (updated_at s)) as [Heq|]; [|lia].
          exfalso. revert Hw Hwy. unfold tiebreak_wins.
          destruct Hfy as (_ & _ & Hd & _). rewrite Hty, Hd.
          subst s. simpl in *. rewrite <- Heq.
          rewrite Z.gtb_ltb, Z.ltb_irrefl. congruence. }
        rewrite tiebreak_rows_fixed_older in Hy.
        { by injection Hy as <-. }
        intros todo Hin. specialize (Hge todo Hin). lia.
    + subst s'. erewrite IH by exact Hrest. simpl. by rewrite Hw.
  - (* [v] was inserted: it is the whole batch *)
    apply merge_rows_None in Hrest as [-> ->]. simpl in Hs. subst s. simpl.
    assert (tiebreak_wins (inserted_row v) v = false) as ->; [|reflexivity].
    unfold tiebreak_wins. simpl.
    by rewrite Z.gtb_ltb, Z.ltb_irrefl, String_ltb_irrefl.
Qed.

Lemma tiebreak_rows_idempotent (o : option Todo) (versions : list Todo) :
  merge_rows tiebreak_wins (merge_rows tiebreak_wins o versions) versions =
    merge_rows tiebreak_wins o versions.
Proof.
  destruct (merge_rows tiebreak_wins o versions) as [s|] eqn:Hs.
  - by eapply tiebreak_rows_fixed.
  - apply merge_rows_None in Hs as [-> ->]. reflexivity.
Qed.

Lemma batch_idempotent (mergeTodo : DB -> Todo -> option DB)
    (wins : Todo -> Todo -> bool) :
  (forall db todo, mergeTodo db todo = Some (merge_store wins db todo)) ->
  (forall o versions,
     merge_rows wins (merge_rows wins o versions) versions =
       merge_rows wins o versions) ->
  forall db todos,
    exists db1,
      handleSyncData mergeTodo db todos = Some db1 /\
      handleSyncData mergeTodo db1 todos = Some db1 /\
      handleSyncData mergeTodo db (todos ++ todos) = Some db1.
Proof.
  intros Hm Hrows db todos.
  assert (foldl (merge_store wins) (foldl (merge_store wins) db todos) todos =
          foldl (merge_store wins) db todos) as Hfix.
  { apply map_eq. intros k. rewrite !foldl_merge_store_lookup. apply Hrows. }
  exists (foldl (merge_store wins) db todos).
  rewrite !(handleSyncData_store mergeTodo wins Hm).
  split; [reflexivity|]. split; [by rewrite Hfix|].
  by rewrite foldl_app, Hfix.
Qed.

(** C2.  Merge is idempotent: from every table and for every SYNC_DATA
    batch, [handleSyncData] succeeds, and running it a second time on the
    resulting table with the same batch (or running it once on the batch
    repeated) gives the table the first run gave.  This holds whichever of
    the two definitions of [mergeTodo] the loop calls. *)
Theorem C2_handleSyncData_idempotent (db : DB) (todos : list Todo) :
  (exists db1,
     handleSyncData SyncEngine.mergeTodo db todos = Some db1 /\
     handleSyncData SyncEngine.mergeTodo db1 todos = Some db1 /\
     handleSyncData SyncEngine.mergeTodo db (todos ++ todos) = Some db1) /\
  (exists db1,
     handleSyncData ConflictResolution.mergeTodo db todos = Some db1 /\
     handleSyncData ConflictResolution.mergeTodo db1 todos = Some db1 /\
     handleSyncData ConflictResolution.mergeTodo db (todos ++ todos) = Some db1).
Proof.
  split.
  - apply (batch_idempotent _ lww_wins);
      [apply SyncEngine_mergeTodo_store | apply lww_rows_idempotent].
  - apply (batch_idempotent _ tiebreak_wins);
      [apply ConflictResolution_mergeTodo_store | apply tiebreak_rows_idempotent].
Qed.

(** ** Theorems: what a merge writes *)

Lemma merge_store_present (wins : Todo -> Todo -> bool) (db : DB)
    (localTodo remoteTodo : Todo) :
  db !! id remoteTodo = Some localTodo ->
  exists row,
    merge_store wins db remoteTodo !! id remoteTodo = Some row /\
    same_frame localTodo row /\
    (row = localTodo \/ same_payload remoteTodo row) /\
    (merge_store wins db remoteTodo = db \/ same_payload remoteTodo row) /\
    (forall k, k ≠ id remoteTodo ->
       merge_store wins db remoteTodo !! k = db !! k).
Proof.
  intros Hl. exists (merge_row wins (Some localTodo) remoteTodo).
  split. { rewrite merge_store_lookup, Hl. by case_decide. }
  split. { apply merge_row_frame. }
  assert (forall k, k ≠ id remoteTodo ->
            merge_store wins db remoteTodo !! k = db !! k) as Hother.
  { intros k Hk. rewrite merge_store_lookup. by case_decide. }
  unfold merge_store, merge_row in *. rewrite Hl in *.
  destruct (wins localTodo remoteTodo).
  - split; [right|split; [right|done]]; unfold same_payload; simpl; tauto.
  - split; [by left|]. split; [left; by apply insert_id|done].
Qed.

(** C8.  When [mergeTodo] meets a record that is already stored, the row it
    leaves under that id has the stored [created_at] (and the stored [id],
    [device_id] and [synced]); the row is either the stored one or carries
    the payload fields, [updated_at] and [deleted] of the incoming version;
    no other row changes.  This holds for both definitions of [mergeTodo],
    which overwrite through [updateTodo]. *)
Theorem C8_merge_keeps_created_at (db : DB) (localTodo remoteTodo : Todo) :
  db !! id remoteTodo = Some localTodo ->
  forall mergeTodo,
    mergeTodo = SyncEngine.mergeTodo \/
    mergeTodo = ConflictResolution.mergeTodo ->
    exists db' row,
      mergeTodo db remoteTodo = Some db' /\
      db' !! id remoteTodo = Some row /\
      created_at row = created_at localTodo /\
      same_frame localTodo row /\
      (row = localTodo \/ same_payload remoteTodo row) /\
      (forall k, k ≠ id remoteTodo -> db' !! k = db !! k).
Proof.
  intros Hl mergeTodo [-> | ->].
  - destruct (merge_store_present lww_wins db _ _ Hl)
      as (row & Hrow & Hf & Hp & _ & Ho).
    exists (merge_store lww_wins db remoteTodo), row.
    rewrite SyncEngine_mergeTodo_store. repeat split; try done; apply Hf.
  - destruct (merge_store_present tiebreak_wins db _ _ Hl)
      as (row & Hrow & Hf & Hp & _ & Ho).
    exists (merge_store tiebreak_wins db remoteTodo), row.
    rewrite ConflictResolution_mergeTodo_store.
    repeat split; try done; apply Hf.
Qed.

Lemma C8_merge_keeps_created_at_witness :
  tie_db !! id newer_incoming = Some tie_local /\
  exists db' row,
    SyncEngine.mergeTodo tie_db newer_incoming = Some db' /\
    db' !! id newer_incoming = Some row /\
    created_at row = created_at tie_local /\
    same_frame tie_local row /\
    (row = tie_local \/ same_payload newer_incoming row) /\
    (forall k, k ≠ id newer_incoming -> db' !! k = tie_db !! k).
Proof.
  split; [reflexivity|].
  apply (C8_merge_keeps_created_at tie_db tie_local newer_incoming);
    [reflexivity | left; reflexivity].
Defined.

Lemma validateTimestamp_skewed (now ts : Z) :
  (Z.abs (ts - now) > oneDay)%Z ->
  validateTimestamp now ts = now /\ now ≠ ts.
Proof.
  intros H. unfold validateTimestamp.
  assert ((Z.abs (ts - now) >? oneDay)%Z = true) as -> by by apply Z.gtb_gt.
  split; [reflexivity|]. unfold oneDay in H. lia.
Qed.

Lemma merge_store_raw (wins : Todo -> Todo -> bool) (db : DB) (remoteTodo : Todo) :
  (forall l, (updated_at l < updated_at remoteTodo)%Z -> wins l remoteTodo = true) ->
  (forall l, (updated_at remoteTodo < updated_at l)%Z -> wins l remoteTodo = false) ->
  (db !! id remoteTodo = None ->
   merge_store wins db remoteTodo !! id remoteTodo =
     Some (inserted_row remoteTodo)) /\
  (forall l, db !! id remoteTodo = Some l ->
     (updated_at l < updated_at remoteTodo)%Z ->
     merge_store wins db remoteTodo !! id remoteTodo =
       Some (updated_row l remoteTodo)) /\
  (forall l, db !! id remoteTodo = Some l ->
     (updated_at remoteTodo < updated_at l)%Z ->
     merge_store wins db remoteTodo = db).
Proof.
  intros Hnew Hold. unfold merge_store. repeat split.
  - intros ->. by rewrite lookup_insert_eq.
  - intros l -> Hlt. rewrite lookup_insert_eq. simpl. by rewrite Hnew.
  - intros l Hl Hlt. rewrite Hl. simpl. rewrite Hold by done. by apply insert_id.
Qed.

(** C9.  An incoming record whose [updated_at] is more than one day away
    from the local clock is merged on its raw [updated_at]: [mergeTodo]
    succeeds; an unknown id is inserted and a stored version that is older
    than the raw value is overwritten, in both cases with the raw value as
    the stored [updated_at]; a stored version that is newer than the raw
    value is kept.  [validateTimestamp], which would turn the raw value into
    the current time, is not on the merge path.  Both definitions of
    [mergeTodo] behave so. *)
Theorem C9_merge_orders_by_raw_updated_at (now : Z) (db : DB) (remoteTodo : Todo) :
  (Z.abs (updated_at remoteTodo - now) > oneDay)%Z ->
  validateTimestamp now (updated_at remoteTodo) ≠ updated_at remoteTodo /\
  forall mergeTodo,
    mergeTodo = SyncEngine.mergeTodo \/
    mergeTodo = ConflictResolution.mergeTodo ->
    exists db',
      mergeTodo db remoteTodo = Some db' /\
      (db !! id remoteTodo = None ->
       exists row, db' !! id remoteTodo = Some row /\
         updated_at row = updated_at remoteTodo /\
         same_payload remoteTodo row) /\
      (forall l, db !! id remoteTodo = Some l ->
         (updated_at l < updated_at remoteTodo)%Z ->
         exists row, db' !! id remoteTodo = Some row /\
           updated_at row = updated_at remoteTodo /\
           same_payload remoteTodo row) /\
      (forall l, db !! id remoteTodo = Some l ->
         (updated_at remoteTodo < updated_at l)%Z -> db' = db).
Proof.
  intros Hskew. split.
  { destruct (validateTimestamp_skewed now _ Hskew) as [-> Hne]. exact Hne. }
  assert (forall wins,
    (forall l, (updated_at l < updated_at remoteTodo)%Z -> wins l remoteTodo = true) ->
    (forall l, (updated_at remoteTodo < updated_at l)%Z -> wins l remoteTodo = false) ->
    (db !! id remoteTodo = None ->
       exists row, merge_store wins db remoteTodo !! id remoteTodo = Some row /\
         updated_at row = updated_at remoteTodo /\
         same_payload remoteTodo row) /\
    (forall l, db !! id remoteTodo = Some l ->
       (updated_at l < updated_at remoteTodo)%Z ->
       exists row, merge_store wins db remoteTodo !! id remoteTodo = Some row /\
         updated_at row = updated_at remoteTodo /\
         same_payload remoteTodo row) /\
    (forall l, db !! id remoteTodo = Some l ->
       (updated_at remoteTodo < updated_at l)%Z ->
       merge_store wins db remoteTodo = db)) as Hraw.
  { intros wins Hnew Hold.
    destruct (merge_store_raw wins db remoteTodo Hnew Hold) as (Hi & Hu & Hk).
    repeat split.
    - intros Hn. exists (inserted_row remoteTodo).
      split; [by apply Hi|]. unfold same_payload. simpl. tauto.
    - intros l Hl Hlt. exists (updated_row l remoteTodo).
      split; [by apply Hu|]. unfold same_payload. simpl. tauto.
    - exact Hk. }
  intros mergeTodo [-> | ->].
  - exists (merge_store lww_wins db remoteTodo).
    rewrite SyncEngine_mergeTodo_store. split; [reflexivity|].
    apply Hraw; intros l Hl; unfold lww_wins.
    + by apply Z.gtb_gt, Z.lt_gt.
    + rewrite Z.gtb_ltb. apply Z.ltb_ge. lia.
  - exists (merge_store tiebreak_wins db remoteTodo).
    rewrite ConflictResolution_mergeTodo_store. split; [reflexivity|].
    apply Hraw; intros l Hl; unfold tiebreak_wins.
    + assert ((updated_at remoteTodo >? updated_at l)%Z = true) as ->
        by by apply Z.gtb_gt, Z.lt_gt.
      reflexivity.
    + assert ((updated_at remoteTodo >? updated_at l)%Z = false) as ->
        by (rewrite Z.gtb_ltb; apply Z.ltb_ge; lia).
      by apply Z.ltb_lt in Hl as ->.
Qed.

Lemma C9_merge_orders_by_raw_updated_at_witness :
  (Z.abs (updated_at newer_incoming - skewed_now) > oneDay)%Z /\
  validateTimestamp skewed_now (updated_at newer_incoming)
    ≠ updated_at newer_incoming /\
  exists db',
    SyncEngine.mergeTodo tie_db newer_incoming = Some db' /\
    exists row, db' !! id newer_incoming = Some row /\
      updated_at row = 200%Z.
Proof.
  assert (Z.abs (updated_at newer_incoming - skewed_now) > oneDay)%Z as Hskew
    by (vm_compute; reflexivity).
  split; [exact Hskew|].
  destruct (C9_merge_orders_by_raw_updated_at skewed_now tie_db newer_incoming
              Hskew) as [Hv Hm].
  split; [exact Hv|].
  destruct (Hm SyncEngine.mergeTodo (or_introl eq_refl))
    as (db' & Hdb' & _ & Hover & _).
  exists db'. split; [exact Hdb'|].
  destruct (Hover tie_local eq_refl ltac:(vm_compute; reflexivity))
    as (row & Hrow & Ht & _).
  exists row. split; [exact Hrow|exact Ht].
Defined.

(** ** Theorems: answering REQUEST_SYNC *)

Lemma sendTodosInBatches_from_done (fuel : nat) (todos : list Todo)
    (batchSize i : Z) :
  (Z.of_nat (length todos) <= i)%Z ->
  sendTodosInBatches_from fuel todos batchSize i = Some [].
Proof.
  intros Hi. apply Z.ltb_ge in Hi. destruct fuel; simpl; by rewrite Hi.
Qed.

Lemma slice_batch (todos : list Todo) (batchSize i : Z) :
  (0 < batchSize)%Z -> (0 <= i < Z.of_nat (length todos))%Z ->
  slice todos i (i + batchSize) =
    take (Z.to_nat batchSize) (drop (Z.to_nat i) todos).
Proof.
  intros Hb Hi. unfold slice.
  assert ((i <? 0)%Z = false) as -> by (apply Z.ltb_ge; lia).
  assert ((i + batchSize <? 0)%Z = false) as -> by (apply Z.ltb_ge; lia).
  rewrite (Z.min_l i) by lia.
  destruct (Z.le_gt_cases (i + batchSize) (Z.of_nat (length todos))) as [Hle|Hgt].
  - rewrite Z.min_l by lia. f_equal. lia.
  - rewrite Z.min_r by lia.
    rewrite !take_ge; [reflexivity| |]; rewrite length_drop; lia.
Qed.

Lemma ceil_div_step (x b : Z) :
  (0 < b)%Z -> (- ((- (x - b)) / b) = - ((- x) / b) - 1)%Z.
Proof.
  intros Hb. replace (- (x - b))%Z with (- x + 1 * b)%Z by lia.
  rewrite Z.div_add by lia. lia.
Qed.

(** For a positive batch size [sendTodosInBatches] ends once it has fuel
    for every batch: the batches are the records in order, cut every
    [batchSize] records; batch number [j] carries [batchIndex = j] and every
    batch carries [totalBatches = ceil (length / batchSize)], which is the
    number of messages. *)
Lemma sendTodosInBatches_from_spec (todos : list Todo) (batchSize : Z)
    (fuel k : nat) :
  (0 < batchSize)%Z ->
  (Z.of_nat (length todos) - Z.of_nat k * batchSize
     <= Z.of_nat fuel * batchSize)%Z ->
  exists ms,
    sendTodosInBatches_from fuel todos batchSize (Z.of_nat k * batchSize)
      = Some ms /\
    concat (out_todos <$> ms) = drop (k * Z.to_nat batchSize) todos /\
    Forall (fun m =>
      out_type m = "SYNC_DATA" /\
      (length (out_todos m) <= Z.to_nat batchSize)%nat /\
      out_totalBatches m =
        Some (Finite (- ((- Z.of_nat (length todos)) / batchSize))%Z)) ms /\
    out_batchIndex <$> ms =
      (fun j => Some (Finite (Z.of_nat j))) <$> seq k (length ms) /\
    Z.of_nat (length ms) =
      Z.max 0 (- ((- (Z.of_nat (length todos) - Z.of_nat k * batchSize))
                    / batchSize))%Z.
Proof.
  intros Hb. revert k. induction fuel as [|fuel IH]; intros k Hfuel.
  - rewrite sendTodosInBatches_from_done by lia.
    exists []. repeat split; try done.
    + simpl. symmetry. apply drop_ge. nia.
    + simpl. symmetry. apply Z.max_l.
      assert (0 <= (- (Z.of_nat (length todos) - Z.of_nat k * batchSize))
                     / batchSize)%Z by (apply Z.div_pos; lia).
      lia.
  - destruct (Z.le_gt_cases (Z.of_nat (length todos)) (Z.of_nat k * batchSize))
      as [Hdone|Hmore].
    + rewrite sendTodosInBatches_from_done by lia.
      exists []. repeat split; try done.
      * simpl. symmetry. apply drop_ge. nia.
      * simpl. symmetry. apply Z.max_l.
        assert (0 <= (- (Z.of_nat (length todos) - Z.of_nat k * batchSize))
                       / batchSize)%Z by (apply Z.div_pos; lia).
        lia.
    + destruct (IH (S k)) as (ms & Hms & Hcat & Hall & Hidx & Hcount); [lia|].
      replace (Z.of_nat (S k) * batchSize)%Z
        with (Z.of_nat k * batchSize + batchSize)%Z in Hms, Hcount by lia.
      cbn [sendTodosInBatches_from].
      assert ((Z.of_nat k * batchSize <? Z.of_nat (length todos))%Z = true)
        as -> by (apply Z.ltb_lt; lia).
      rewrite Hms. eexists. split; [reflexivity|].
      rewrite slice_batch by lia.
      assert (Z.to_nat (Z.of_nat k * batchSize) = (k * Z.to_nat batchSize)%nat)
        as -> by nia.
      split; [|split; [|split]].
      * rewrite fmap_cons, concat_cons. cbn [out_todos]. rewrite Hcat.
        replace (S k * Z.to_nat batchSize)%nat
          with (k * Z.to_nat batchSize + Z.to_nat batchSize)%nat by lia.
        rewrite <- drop_drop. apply take_drop.
      * constructor; [|exact Hall]. cbn [out_type out_todos out_totalBatches].
        split; [reflexivity|]. split.
        { rewrite length_take. lia. }
        unfold ceil_div.
        by assert ((batchSize =? 0)%Z = false) as -> by (apply Z.eqb_neq; lia).
      * rewrite fmap_cons. cbn [out_batchIndex length seq fmap list_fmap].
        f_equal; [|exact Hidx].
        unfold floor_div.
        assert ((batchSize =? 0)%Z = false) as -> by (apply Z.eqb_neq; lia).
        by rewrite Z.div_mul by lia.
      * cbn [length]. rewrite Nat2Z.inj_succ, Hcount.
        replace (Z.of_nat (length todos) -
                 (Z.of_nat k * batchSize + batchSize))%Z
          with (Z.of_nat (length todos) - Z.of_nat k * batchSize
                - batchSize)%Z by lia.
        rewrite ceil_div_step by lia.
        assert (1 <= - ((- (Z.of_nat (length todos) - Z.of_nat k * batchSize))
                          / batchSize))%Z; [|lia].
        assert ((- (Z.of_nat (length todos) - Z.of_nat k * batchSize))
                  / batchSize < 0)%Z; [|lia].
        apply Z.div_lt_upper_bound; lia.
Qed.

(** [sendTodosInBatches] with a positive batch size and fuel for every
    batch ends; the batches, put end to end, are the records in their
    order; no batch holds more than [batchSize] records; batch number [j]
    carries [batchIndex = j]; and every batch carries as [totalBatches] the
    number of messages sent. *)
Lemma sendTodosInBatches_spec (todos : list Todo) (batchSize : Z) (fuel : nat) :
  (0 < batchSize)%Z ->
  (Z.of_nat (length todos) <= Z.of_nat fuel * batchSize)%Z ->
  exists ms,
    sendTodosInBatches fuel todos batchSize = Some ms /\
    concat (out_todos <$> ms) = todos /\
    Forall (fun m =>
      out_type m = "SYNC_DATA" /\
      (length (out_todos m) <= Z.to_nat batchSize)%nat /\
      out_totalBatches m = Some (Finite (Z.of_nat (length ms)))) ms /\
    out_batchIndex <$> ms =
      (fun j => Some (Finite (Z.of_nat j))) <$> seq 0 (length ms).
Proof.
  intros Hb Hfuel.
  destruct (sendTodosInBatches_from_spec todos batchSize fuel 0 Hb)
    as (ms & Hms & Hcat & Hall & Hidx & Hcount); [lia|].
  exists ms. split; [exact Hms|]. split; [exact Hcat|]. split; [|exact Hidx].
  replace (Z.of_nat (length todos) - Z.of_nat 0 * batchSize)%Z
    with (Z.of_nat (length todos)) in Hcount by lia.
  assert (0 <= - ((- Z.of_nat (length todos)) / batchSize))%Z as Hnn.
  { assert ((- Z.of_nat (length todos)) / batchSize <= 0)%Z; [|lia].
    apply Z.div_le_upper_bound; lia. }
  rewrite Z.max_r in Hcount by lia. rewrite Hcount. exact Hall.
Qed.

(** [sendTodosInBatches] on 250 records with batches of 100: three
    SYNC_DATA messages of 100, 100 and 50 records, numbered 0, 1, 2 of 3. *)
Lemma sendTodosInBatches_250 (todos : list Todo) (fuel : nat) :
  length todos = 250%nat -> (3 <= fuel)%nat ->
  sendTodosInBatches fuel todos default_batchSize =
    Some [ batch_message (take 100 todos) 0 3;
           batch_message (take 100 (drop 100 todos)) 1 3;
           batch_message (take 50 (drop 200 todos)) 2 3 ] /\
  length (take 100 todos) = 100%nat /\
  length (take 100 (drop 100 todos)) = 100%nat /\
  length (take 50 (drop 200 todos)) = 50%nat /\
  take 100 todos ++ take 100 (drop 100 todos) ++ take 50 (drop 200 todos)
    = todos.
Proof.
  intros Hlen Hfuel.
  destruct fuel as [|[|[|fuel]]]; try lia.
  split.
  - unfold sendTodosInBatches, default_batchSize.
    cbn [sendTodosInBatches_from]. unfold slice. rewrite Hlen.
    vm_compute Z.of_nat.
    replace (0 <? 250)%Z with true by reflexivity.
    replace (0 + 100 <? 250)%Z with true by reflexivity.
    replace (0 + 100 + 100 <? 250)%Z with true by reflexivity.
    rewrite sendTodosInBatches_from_done by (rewrite Hlen; vm_compute; congruence).
    reflexivity.
  - rewrite !length_take, !length_drop, Hlen. repeat split; try lia.
    rewrite <- (take_drop 100 todos) at 4. f_equal.
    rewrite <- (take_drop 100 (drop 100 todos)) at 2. f_equal.
    rewrite drop_drop. apply take_ge. rewrite length_drop. lia.
Qed.

Lemma getTodosByIds_length_le (db : DB) (ids : list string) :
  (length (getTodosByIds db ids) <= size db)%nat.
Proof.
  unfold getTodosByIds. etrans; [apply length_filter|].
  by rewrite length_fmap, length_map_to_list.
Qed.

Lemma sendTodosInBatches_250_batches (todos : list Todo) :
  length todos = 250%nat ->
  exists m0 m1 m2,
    sendTodosInBatches 3 todos 100 = Some [m0; m1; m2] /\
    (length (out_todos m0) + length (out_todos m1) + length (out_todos m2)
       = 250)%nat /\
    out_type m0 = "SYNC_DATA" /\ out_type m1 = "SYNC_DATA" /\
    out_type m2 = "SYNC_DATA" /\
    out_todos m0 ++ out_todos m1 ++ out_todos m2 = todos /\
    out_batchIndex m0 = Some (Finite 0) /\
    out_batchIndex m1 = Some (Finite 1) /\
    out_batchIndex m2 = Some (Finite 2) /\
    out_totalBatches m0 = Some (Finite 3) /\
    out_totalBatches m1 = Some (Finite 3) /\
    out_totalBatches m2 = Some (Finite 3).
Proof.
  intros Hlen.
  destruct (sendTodosInBatches_250 todos 3 Hlen (le_n 3))
    as (Hsend & H0 & H1 & H2 & Hall).
  do 3 eexists. split; [exact Hsend|]. simpl. rewrite H0, H1, H2.
  repeat split. exact Hall.
Qed.

(** C7 (code defect).  The claim: a REQUEST_SYNC for 250 ids is answered by
    3 SYNC_DATA batches of 100, 100 and 50 records with [batchIndex] 0, 1, 2
    and [totalBatches] 3.  [handleSyncRequest] answers every request with one
    SYNC_DATA message that holds all the records and has neither
    [batchIndex] nor [totalBatches]; [sendTodosInBatches], which cuts the
    same 250 records into the three batches of the claim, is never called
    by it. *)
Theorem C7_handleSyncRequest_sends_one_message :
  length sample_ids = 250%nat /\
  (forall db needIds, exists m,
     handleSyncRequest db needIds = [m] /\
     out_type m = "SYNC_DATA" /\
     out_todos m = getTodosByIds db needIds /\
     out_batchIndex m = None /\ out_totalBatches m = None) /\
  (length <$> (out_todos <$> handleSyncRequest sample_db sample_ids))
    = [250%nat] /\
  exists m0 m1 m2,
    sendTodosInBatches 3 (getTodosByIds sample_db sample_ids) 100 =
      Some [m0; m1; m2] /\
    (length (out_todos m0) + length (out_todos m1) + length (out_todos m2)
       = 250)%nat /\
    out_batchIndex m0 = Some (Finite 0) /\
    out_batchIndex m1 = Some (Finite 1) /\
    out_batchIndex m2 = Some (Finite 2) /\
    out_totalBatches m0 = Some (Finite 3) /\
    out_totalBatches m1 = Some (Finite 3) /\
    out_totalBatches m2 = Some (Finite 3).
Proof.
  assert (length (getTodosByIds sample_db sample_ids) = 250%nat) as Hlen
    by (vm_compute; reflexivity).
  split; [reflexivity|]. split.
  { intros db needIds. eexists. repeat split. }
  split; [vm_compute; reflexivity|].
  destruct (sendTodosInBatches_250_batches _ Hlen)
    as (m0 & m1 & m2 & Hsend & Hsum & _ & _ & _ & _ & Hrest).
  exists m0, m1, m2. split; [exact Hsend|]. split; [exact Hsum|exact Hrest].
Qed.

(** ** Theorems: the relay server *)

Import Relay.

Lemma RLock_restores (mu mu' : RWMutex) :
  RLock mu = Some mu' -> RUnlock mu' = mu.
Proof. destruct mu as [| |n]; simpl; intros [= <-]; reflexivity. Qed.

Lemma RLock_free (mu : RWMutex) : mu ≠ WLocked -> is_Some (RLock mu).
Proof. destruct mu; simpl; eauto. by intros []. Qed.

Lemma with_mu_same (reg : Registry) : with_mu reg (sessionsMu reg) = reg.
Proof. by destruct reg. Qed.

Lemma written_app (evs evs' : list Event) :
  written (evs ++ evs') = written evs ++ written evs'.
Proof. unfold written. by rewrite bind_app. Qed.

Lemma written_relay_to (werr : Conn -> bool) (fromDevice : string)
    (msg : SyncMessage) (deviceID : string) (conn : Conn) :
  written (relay_to werr fromDevice msg (deviceID, conn)) =
    if decide (deviceID ≠ fromDevice) then [(conn, msg)] else [].
Proof.
  unfold relay_to. case_decide; [|reflexivity].
  destruct (werr conn); reflexivity.
Qed.

Lemma written_relay_loop (werr : Conn -> bool) (fromDevice : string)
    (msg : SyncMessage) (entries : list (string * Conn)) :
  written (entries ≫= relay_to werr fromDevice msg) =
    (fun entry => (entry.2, msg)) <$>
      filter (fun entry => entry.1 ≠ fromDevice) entries.
Proof.
  induction entries as [|[d c] rest IH]; [reflexivity|].
  rewrite bind_cons, written_app, written_relay_to, IH, filter_cons. simpl.
  by case_decide.
Qed.

(** What [relayMessage] does: it waits if the write lock is held; else it
    returns the registry as it was, having written [msg] to the connection
    of every entry of the session other than [fromDevice]'s. *)
Lemma relayMessage_blocked (werr : Conn -> bool) (reg : Registry)
    (sessionID fromDevice : string) (msg : SyncMessage) :
  sessionsMu reg = WLocked ->
  relayMessage werr reg sessionID fromDevice msg = Blocks reg [].
Proof. intros H. unfold relayMessage. by rewrite H. Qed.

Lemma relayMessage_returns (werr : Conn -> bool) (reg : Registry)
    (sessionID fromDevice : string) (msg : SyncMessage) :
  sessionsMu reg ≠ WLocked ->
  relayMessage werr reg sessionID fromDevice msg =
    Returns reg
      match sessions reg !! sessionID with
      | None => [EvLog "WARN" "Session not found" sessionID]
      | Some session =>
          map_to_list (Connections session) ≫= relay_to werr fromDevice msg
      end.
Proof.
  intros Hmu. unfold relayMessage.
  destruct (RLock_free _ Hmu) as [mu Hl]. rewrite Hl.
  rewrite (RLock_restores _ _ Hl), with_mu_same.
  by destruct (sessions reg !! sessionID).
Qed.

Lemma relayMessage_written (werr : Conn -> bool) (reg : Registry)
    (sessionID fromDevice : string) (msg : SyncMessage) :
  written (events_of (relayMessage werr reg sessionID fromDevice msg)) =
    match sessions reg !! sessionID with
    | Some session =>
        if decide (sessionsMu reg = WLocked) then []
        else (fun entry => (entry.2, msg)) <$>
               filter (fun entry => entry.1 ≠ fromDevice)
                 (map_to_list (Connections session))
    | None => []
    end.
Proof.
  destruct (decide (sessionsMu reg = WLocked)) as [Hmu|Hmu].
  - rewrite relayMessage_blocked by done. simpl.
    by destruct (sessions reg !! sessionID).
  - rewrite relayMessage_returns by done. simpl.
    destruct (sessions reg !! sessionID); [|reflexivity].
    apply written_relay_loop.
Qed.

Lemma relayMessage_written_iff (werr : Conn -> bool) (reg : Registry)
    (sessionID fromDevice : string) (msg : SyncMessage) (conn : Conn)
    (m : SyncMessage) :
  (conn, m) ∈ written (events_of (relayMessage werr reg sessionID fromDevice msg))
  <-> sessionsMu reg ≠ WLocked /\ m = msg /\
      exists session deviceID,
        sessions reg !! sessionID = Some session /\
        Connections session !! deviceID = Some conn /\
        deviceID ≠ fromDevice.
Proof.
  rewrite relayMessage_written.
  destruct (sessions reg !! sessionID) as [session|] eqn:Hs.
  - case_decide as Hmu.
    + split; [by intros ?%elem_of_nil | by intros [? _]].
    + rewrite list_elem_of_fmap. split.
      * intros ([d c] & [= -> ->] & Hin). apply list_elem_of_filter in Hin as [Hd Hin].
        apply elem_of_map_to_list in Hin. simpl in *.
        split; [done|]. split; [done|]. by exists session, d.
      * intros (_ & -> & s & d & [= <-] & Hc & Hd).
        exists (d, conn). split; [done|]. apply list_elem_of_filter.
        split; [done|]. by apply elem_of_map_to_list.
  - split; [by intros ?%elem_of_nil|]. by intros (_ & _ & s & d & [=] & _).
Qed.

(** C4 (amended).  Session isolation.  Whatever the registry holds, every
    write that [relayMessage] makes for a message of session [A] carries
    that message and goes to the connection of an entry of session [A]
    whose device id is not the sender's; so a connection that is no
    participant of [A] (a device joined only to another session) is never
    written to.  The sender is left out by device id: its own connection is
    not written to when [A] holds that connection under the sender's id
    only, and is written to when [A] holds it under another device id as
    well. *)
Theorem C4_relay_stays_in_session (werr : Conn -> bool) (reg : Registry)
    (A fromDevice : string) (msg : SyncMessage) :
  (forall conn m,
     (conn, m) ∈ written (events_of (relayMessage werr reg A fromDevice msg)) ->
     m = msg /\
     exists session deviceID,
       sessions reg !! A = Some session /\
       Connections session !! deviceID = Some conn /\
       deviceID ≠ fromDevice) /\
  (forall conn,
     (forall session deviceID,
        sessions reg !! A = Some session ->
        Connections session !! deviceID ≠ Some conn) ->
     forall m,
       (conn, m) ∉ written (events_of (relayMessage werr reg A fromDevice msg))) /\
  (forall session conn,
     sessions reg !! A = Some session ->
     Connections session !! fromDevice = Some conn ->
     (forall deviceID,
        Connections session !! deviceID = Some conn -> deviceID = fromDevice) ->
     forall m,
       (conn, m) ∉ written (events_of (relayMessage werr reg A fromDevice msg))) /\
  (sessionsMu reg ≠ WLocked ->
   forall session conn deviceID,
     sessions reg !! A = Some session ->
     Connections session !! fromDevice = Some conn ->
     Connections session !! deviceID = Some conn ->
     deviceID ≠ fromDevice ->
     (conn, msg) ∈ written (events_of (relayMessage werr reg A fromDevice msg))).
Proof.
  split; [|split; [|split]].
  - intros conn m Hin. apply relayMessage_written_iff in Hin. tauto.
  - intros conn Hout m Hin.
    apply relayMessage_written_iff in Hin as (_ & _ & s & d & Hs & Hc & _).
    by apply (Hout s d).
  - intros session conn Hs Hconn Hinj m Hin.
    apply relayMessage_written_iff in Hin as (_ & _ & s & d & Hs' & Hc & Hd).
    rewrite Hs in Hs'. injection Hs' as <-. apply Hd. by apply Hinj.
  - intros Hmu session conn deviceID Hs _ Hc Hd.
    apply relayMessage_written_iff. split; [done|]. split; [done|].
    by exists session, deviceID.
Qed.

Lemma session_A_entries (deviceID : string) (conn : Conn) :
  Connections session_A !! deviceID = Some conn ->
  (deviceID = "d1" /\ conn = 1%positive) \/
  (deviceID = "d2" /\ conn = 2%positive) \/
  (deviceID = "d4" /\ conn = 4%positive).
Proof.
  unfold session_A. cbn [Connections]. intros H.
  apply lookup_insert_Some in H as [[<- <-]|[_ H]]; [by left|].
  apply lookup_insert_Some in H as [[<- <-]|[_ H]]; [right; by left|].
  apply lookup_singleton_Some in H as [<- <-]. right; by right.
Qed.

Lemma C4_relay_stays_in_session_witness :
  (2%positive, sample_message) ∈
    written (events_of (relayMessage no_write_error sample_registry "A" "d1"
                          sample_message)) /\
  (exists session deviceID,
     sessions sample_registry !! "A" = Some session /\
     Connections session !! deviceID = Some 2%positive /\
     deviceID ≠ "d1") /\
  (forall m,
     (3%positive, m) ∉
       written (events_of (relayMessage no_write_error sample_registry "A" "d1"
                             sample_message))) /\
  (forall m,
     (1%positive, m) ∉
       written (events_of (relayMessage no_write_error sample_registry "A" "d1"
                             sample_message))).
Proof.
  pose proof (C4_relay_stays_in_session no_write_error sample_registry "A" "d1"
                sample_message) as (Hsub & Hother & Hself & _).
  assert ((2%positive, sample_message) ∈
            written (events_of (relayMessage no_write_error sample_registry
                                  "A" "d1" sample_message))) as Hin.
  { vm_compute. apply list_elem_of_here. }
  split; [exact Hin|]. split; [exact (proj2 (Hsub _ _ Hin))|]. split.
  - apply Hother. intros session deviceID [= <-] Hc.
    by destruct (session_A_entries _ _ Hc) as [[_ ?]|[[_ ?]|[_ ?]]].
  - apply (Hself session_A); [reflexivity|reflexivity|].
    intros deviceID Hc.
    by destruct (session_A_entries _ _ Hc) as [[? _]|[[_ ?]|[_ ?]]].
Defined.

(** C4, the claim as stated, fails where a session holds the sender's
    connection under a second device id: relaying a message of [d1] in
    session [A] writes it to connection 1, which is [d1]'s own. *)
Lemma C4_sender_connection_counterexample :
  sessions shared_registry !! "A" = Some shared_session /\
  Connections shared_session !! "d1" = Some 1%positive /\
  (1%positive, sample_message) ∈
    written (events_of (relayMessage no_write_error shared_registry "A" "d1"
                          sample_message)).
Proof.
  split; [reflexivity|]. split; [reflexivity|].
  vm_compute. apply list_elem_of_here.
Qed.

(** C10.  The relay does not look at [ToDevice].  [relayMessage] writes to
    the same connections, in the same order, whatever [ToDevice] holds; what
    it writes is the message as received; and unless the caller waits on
    the lock, every entry of the session other than the sender's gets it,
    the one named by [ToDevice] and all the others alike.  The [switch] of
    the handler is as blind to the field. *)
Theorem C10_relay_ignores_ToDevice (werr : Conn -> bool) (reg : Registry)
    (sessionID fromDevice toDevice : string) (msg : SyncMessage) :
  (written (events_of
      (relayMessage werr reg sessionID fromDevice (set_ToDevice toDevice msg))))
    .*1 =
  (written (events_of (relayMessage werr reg sessionID fromDevice msg))).*1 /\
  (forall conn m,
     (conn, m) ∈ written (events_of (relayMessage werr reg sessionID fromDevice
                                       (set_ToDevice toDevice msg))) ->
     m = set_ToDevice toDevice msg) /\
  (sessionsMu reg ≠ WLocked ->
   forall session deviceID conn,
     sessions reg !! sessionID = Some session ->
     Connections session !! deviceID = Some conn ->
     deviceID ≠ fromDevice ->
     (conn, set_ToDevice toDevice msg) ∈
       written (events_of (relayMessage werr reg sessionID fromDevice
                             (set_ToDevice toDevice msg)))) /\
  (forall now conn,
     MsgType msg ∈ relayed_types ->
     dispatch now werr reg conn (set_ToDevice toDevice msg) =
       relayMessage werr reg (MsgSessionID msg) (FromDevice msg)
         (set_ToDevice toDevice msg)).
Proof.
  split; [|split; [|split]].
  - rewrite !relayMessage_written.
    destruct (sessions reg !! sessionID); [|reflexivity].
    case_decide; [reflexivity|]. by rewrite <- !list_fmap_compose.
  - intros conn m Hin. apply relayMessage_written_iff in Hin. tauto.
  - intros Hmu session deviceID conn Hs Hc Hd.
    apply relayMessage_written_iff. split; [done|]. split; [done|].
    by exists session, deviceID.
  - intros now conn Hty. unfold dispatch. simpl.
    destruct (decide (MsgType msg = "JOIN")) as [Hj|_].
    { exfalso. rewrite Hj in Hty. revert Hty. unfold relayed_types.
      rewrite !elem_of_cons, elem_of_nil. intuition discriminate. }
    by rewrite decide_True.
Qed.

Lemma C10_relay_ignores_ToDevice_witness :
  sessionsMu sample_registry ≠ WLocked /\
  set_ToDevice "d2" sample_message = sample_message /\
  (2%positive, sample_message) ∈
     written (events_of (relayMessage no_write_error sample_registry "A" "d1"
                           (set_ToDevice "d2" sample_message))) /\
  (4%positive, sample_message) ∈
     written (events_of (relayMessage no_write_error sample_registry "A" "d1"
                           (set_ToDevice "d2" sample_message))).
Proof.
  assert (sessionsMu sample_registry ≠ WLocked) as Hmu by discriminate.
  pose proof (C10_relay_ignores_ToDevice no_write_error sample_registry
                "A" "d1" "d2" sample_message) as (_ & _ & Hall & _).
  split; [exact Hmu|]. split; [reflexivity|]. split.
  - apply (Hall Hmu session_A "d2" 2%positive);
      [reflexivity | reflexivity | discriminate].
  - apply (Hall Hmu session_A "d4" 4%positive);
      [reflexivity | reflexivity | discriminate].
Defined.

(** ** Theorems: the sweep *)

(** The saturating [Time.Sub] does not blur the test: a session is swept
    exactly when its age exceeds 15 minutes. *)
Lemma expired_iff (now : Z) (session : SyncSession) :
  expired now session = true <-> (age now session > expiry)%Z.
Proof.
  unfold expired, Sub, age, expiry, Minute, minDuration, maxDuration.
  rewrite Z.gtb_gt.
  replace (2 ^ 63)%Z with 9223372036854775808%Z by reflexivity. lia.
Qed.

Lemma expired_false_iff (now : Z) (session : SyncSession) :
  expired now session = false <-> (age now session <= expiry)%Z.
Proof.
  pose proof (expired_iff now session).
  destruct (expired now session); split; intros; try done; lia.
Qed.

Lemma cleanup_fold_cons (now : Z) (sid : string) (s : SyncSession)
    (rest : list (string * SyncSession)) (m : gmap string SyncSession)
    (evs : list Event) :
  foldl (cleanup_step now) (m, evs) ((sid, s) :: rest) =
    if expired now s
    then foldl (cleanup_step now)
           (delete sid m,
            evs ++ (EvClose <$> (map_to_list (Connections s)).*2) ++
              [EvDelete sid; EvLog "INFO" "Cleaned up expired session" sid])
           rest
    else foldl (cleanup_step now) (m, evs) rest.
Proof. simpl. by destruct (expired now s). Qed.

Lemma cleanup_fold_events (now : Z) (entries : list (string * SyncSession))
    (m : gmap string SyncSession) (evs : list Event) :
  exists tail, (foldl (cleanup_step now) (m, evs) entries).2 = evs ++ tail.
Proof.
  revert m evs. induction entries as [|[sid s] rest IH]; intros m evs.
  - exists []. simpl. by rewrite app_nil_r.
  - rewrite cleanup_fold_cons. destruct (expired now s).
    + destruct (IH (delete sid m)
                  (evs ++ (EvClose <$> (map_to_list (Connections s)).*2) ++
                     [EvDelete sid;
                      EvLog "INFO" "Cleaned up expired session" sid]))
        as [tail ->].
      eexists. by rewrite <- app_assoc.
    + apply IH.
Qed.

Lemma cleanup_fold_absent (now : Z) (entries : list (string * SyncSession))
    (m : gmap string SyncSession) (evs : list Event) (k : string) :
  m !! k = None -> (foldl (cleanup_step now) (m, evs) entries).1 !! k = None.
Proof.
  revert m evs. induction entries as [|[sid s] rest IH]; intros m evs Hk.
  - done.
  - rewrite cleanup_fold_cons. destruct (expired now s).
    + apply IH. rewrite lookup_delete_None. by right.
    + by apply IH.
Qed.

Lemma cleanup_fold_kept (now : Z) (entries : list (string * SyncSession))
    (m : gmap string SyncSession) (evs : list Event) (k : string) :
  (forall s, (k, s) ∈ entries -> expired now s = false) ->
  (foldl (cleanup_step now) (m, evs) entries).1 !! k = m !! k.
Proof.
  revert m evs. induction entries as [|[sid s] rest IH]; intros m evs Hk.
  - done.
  - rewrite cleanup_fold_cons. destruct (expired now s) eqn:He.
    + rewrite IH by (intros s' Hin; apply Hk; by right).
      apply lookup_delete_ne. intros ->.
      rewrite (Hk s) in He; [done|by left].
    + apply IH. intros s' Hin. apply Hk. by right.
Qed.

Lemma cleanup_fold_swept (now : Z) (entries : list (string * SyncSession))
    (m : gmap string SyncSession) (evs : list Event) (k : string)
    (s : SyncSession) :
  (k, s) ∈ entries -> expired now s = true ->
  (foldl (cleanup_step now) (m, evs) entries).1 !! k = None /\
  exists pre post,
    (foldl (cleanup_step now) (m, evs) entries).2 =
      pre ++ EvDelete k :: post /\
    forall deviceID conn,
      Connections s !! deviceID = Some conn -> EvClose conn ∈ pre.
Proof.
  revert m evs. induction entries as [|[sid s'] rest IH]; intros m evs Hin He.
  { by apply elem_of_nil in Hin. }
  rewrite cleanup_fold_cons.
  apply elem_of_cons in Hin as [[= <- <-]|Hin].
  - rewrite He.
    split. { apply cleanup_fold_absent. apply lookup_delete_eq. }
    destruct (cleanup_fold_events now rest (delete k m)
                (evs ++ (EvClose <$> (map_to_list (Connections s)).*2) ++
                   [EvDelete k; EvLog "INFO" "Cleaned up expired session" k]))
      as [tail Ht].
    rewrite Ht.
    exists (evs ++ (EvClose <$> (map_to_list (Connections s)).*2)),
      (EvLog "INFO" "Cleaned up expired session" k :: tail).
    split. { rewrite <- !app_assoc. reflexivity. }
    intros d c Hc. apply elem_of_app. right.
    apply list_elem_of_fmap. exists c. split; [done|].
    apply list_elem_of_fmap. exists (d, c). split; [done|].
    by apply elem_of_map_to_list.
  - destruct (expired now s'); by apply IH.
Qed.

(** C5.  A sweep that finds [sessionsMu] free returns and releases it.
    Every session older than 15 minutes is then absent, and each of its
    connections was closed before the session was deleted; every session
    whose age is at most 15 minutes is still there, unchanged; no session
    appears. *)
Theorem C5_sweep_removes_expired_sessions (now : Z) (reg : Registry) :
  sessionsMu reg = Unlocked ->
  exists reg' evs,
    cleanupSessions now reg = Returns reg' evs /\
    sessionsMu reg' = Unlocked /\
    (forall sessionID session,
       sessions reg !! sessionID = Some session ->
       (age now session > 15 * Minute)%Z ->
       sessions reg' !! sessionID = None /\
       exists pre post,
         evs = pre ++ EvDelete sessionID :: post /\
         forall deviceID conn,
           Connections session !! deviceID = Some conn ->
           EvClose conn ∈ pre) /\
    (forall sessionID session,
       sessions reg !! sessionID = Some session ->
       (age now session <= 15 * Minute)%Z ->
       sessions reg' !! sessionID = Some session) /\
    (forall sessionID,
       sessions reg !! sessionID = None ->
       sessions reg' !! sessionID = None).
Proof.
  intros Hmu. unfold cleanupSessions. rewrite Hmu. simpl.
  eexists _, _. split; [reflexivity|]. split; [reflexivity|]. simpl.
  split; [|split].
  - intros sid s Hs Hage. apply cleanup_fold_swept.
    + by apply elem_of_map_to_list.
    + by apply expired_iff.
  - intros sid s Hs Hage. rewrite cleanup_fold_kept; [done|].
    intros s' Hin. apply elem_of_map_to_list in Hin.
    rewrite Hs in Hin. injection Hin as <-. by apply expired_false_iff.
  - intros sid Hs. by apply cleanup_fold_absent.
Qed.

Lemma C5_sweep_removes_expired_sessions_witness :
  sessionsMu sample_registry = Unlocked /\
  age sweep_time session_A = (16 * Minute)%Z /\
  age sweep_time session_B = (14 * Minute)%Z /\
  exists reg' evs,
    cleanupSessions sweep_time sample_registry = Returns reg' evs /\
    sessions reg' !! "A" = None /\
    sessions reg' !! "B" = Some session_B /\
    exists pre post,
      evs = pre ++ EvDelete "A" :: post /\
      EvClose 1%positive ∈ pre /\ EvClose 2%positive ∈ pre /\
      EvClose 4%positive ∈ pre.
Proof.
  split; [reflexivity|]. split; [reflexivity|]. split; [reflexivity|].
  destruct (C5_sweep_removes_expired_sessions sweep_time sample_registry
              eq_refl) as (reg' & evs & Hrun & _ & Hold & Hyoung & _).
  exists reg', evs. split; [exact Hrun|].
  destruct (Hold "A" session_A eq_refl ltac:(vm_compute; reflexivity))
    as (Hgone & pre & post & Hevs & Hclosed).
  split; [exact Hgone|]. split.
  { apply Hyoung; [reflexivity|]. vm_compute. discriminate. }
  exists pre, post. split; [exact Hevs|].
  split; [|split].
  - apply (Hclosed "d1"). reflexivity.
  - apply (Hclosed "d2"). reflexivity.
  - apply (Hclosed "d4"). reflexivity.
Defined.

(** ** Theorems: leaving a session *)

(** C6.  [removeConnection(S, D)] for a participant [D] of session [S],
    with [sessionsMu] free, returns and releases the lock.  If [D] was the
    last participant, [S] is no longer in the registry; otherwise [S] is
    there with exactly the other participants.  No other session changes,
    and a registry without empty sessions stays so. *)
Theorem C6_leave_removes_participant (reg : Registry) (S D : string)
    (session : SyncSession) (conn : Conn) :
  sessionsMu reg = Unlocked ->
  sessions reg !! S = Some session ->
  Connections session !! D = Some conn ->
  exists reg' evs,
    removeConnection reg S D = Returns reg' evs /\
    sessionsMu reg' = Unlocked /\
    (forall session',
       sessions reg' !! S = Some session' ->
       Connections session' !! D = None /\
       Connections session' = delete D (Connections session) /\
       Connections session' ≠ ∅ /\
       SessionID session' = SessionID session /\
       CreatedAt session' = CreatedAt session) /\
    (delete D (Connections session) = ∅ -> sessions reg' !! S = None) /\
    (delete D (Connections session) ≠ ∅ -> is_Some (sessions reg' !! S)) /\
    (forall k, k ≠ S -> sessions reg' !! k = sessions reg !! k) /\
    (no_empty_session (sessions reg) -> no_empty_session (sessions reg')).
Proof.
  intros Hmu Hs Hc. unfold removeConnection. rewrite Hmu, Hs. simpl.
  destruct (decide (size (delete D (Connections session)) = 0%nat)) as [Hz|Hnz].
  - apply map_size_empty_iff in Hz.
    eexists _, _. split; [reflexivity|]. split; [reflexivity|]. simpl.
    split; [|split; [|split; [|split]]].
    + intros s'. by rewrite lookup_delete_eq.
    + intros _. apply lookup_delete_eq.
    + intros Hne. by destruct Hne.
    + intros k Hk. by apply lookup_delete_ne.
    + intros Hinv k s' Hk. apply lookup_delete_Some in Hk as [_ Hk].
      by apply (Hinv k).
  - assert (delete D (Connections session) ≠ ∅) as Hne.
    { intros He. apply Hnz. by apply map_size_empty_iff. }
    eexists _, _. split; [reflexivity|]. split; [reflexivity|]. simpl.
    split; [|split; [|split; [|split]]].
    + intros s'. rewrite lookup_insert_eq. intros [= <-]. simpl.
      split; [apply lookup_delete_eq|done].
    + intros He. by destruct Hne.
    + intros _. rewrite lookup_insert_eq. eauto.
    + intros k Hk. by apply lookup_insert_ne.
    + intros Hinv k s' Hk. apply lookup_insert_Some in Hk as [[_ <-]|[_ Hk]].
      * done.
      * by apply (Hinv k).
Qed.

Lemma C6_leave_removes_participant_witness :
  sessionsMu sample_registry = Unlocked /\
  sessions sample_registry !! "B" = Some session_B /\
  Connections session_B !! "d3" = Some 3%positive /\
  exists reg' evs,
    removeConnection sample_registry "B" "d3" = Returns reg' evs /\
    sessions reg' !! "B" = None /\
    sessions reg' !! "A" = Some session_A.
Proof.
  split; [reflexivity|]. split; [reflexivity|]. split; [reflexivity|].
  destruct (C6_leave_removes_participant sample_registry "B" "d3" session_B
              3%positive eq_refl eq_refl eq_refl)
    as (reg' & evs & Hrun & _ & _ & Hlast & _ & Hother & _).
  exists reg', evs. split; [exact Hrun|]. split.
  - apply Hlast. apply delete_singleton_eq.
  - rewrite Hother by discriminate. reflexivity.
Defined.

(** ** Theorems: the handler *)

(** [handleJoin] never returns: it calls [relayMessage] while it holds the
    write lock, and [relayMessage] waits for the read lock.  The session is
    created and the device entered, but the JOIN is not forwarded. *)
Lemma handleJoin_waits (now : Z) (werr : Conn -> bool) (reg : Registry)
    (sessionID deviceID : string) (conn : Conn) (msg : SyncMessage) :
  exists reg' evs,
    handleJoin now werr reg sessionID deviceID conn msg = Blocks reg' evs /\
    written evs = [] /\ (forall c, EvClose c ∉ evs).
Proof.
  unfold handleJoin. destruct (Lock (sessionsMu reg)) as [mu|] eqn:Hl.
  - assert (mu = WLocked) as -> by (destruct (sessionsMu reg); by inversion Hl).
    destruct (sessions reg !! sessionID) as [s|];
      rewrite relayMessage_blocked by reflexivity;
      eexists _, _; (split; [reflexivity|]); (split; [reflexivity|]);
      intros c Hin; simpl in Hin;
      repeat (apply elem_of_cons in Hin as [Hin|Hin]; [discriminate|]);
      by apply elem_of_nil in Hin.
  - eexists _, _. split; [reflexivity|]. split; [reflexivity|].
    intros c Hin. by apply elem_of_nil in Hin.
Qed.

Lemma relay_loop_no_close (werr : Conn -> bool) (fromDevice : string)
    (msg : SyncMessage) (entries : list (string * Conn)) (c : Conn) :
  EvClose c ∉ entries ≫= relay_to werr fromDevice msg.
Proof.
  intros Hin. apply list_elem_of_bind in Hin as ([d c'] & Hin & _).
  unfold relay_to in Hin. case_decide; [|by apply elem_of_nil in Hin].
  apply elem_of_cons in Hin as [Hin|Hin]; [discriminate|].
  destruct (werr c').
  - apply elem_of_cons in Hin as [Hin|Hin]; [discriminate|].
    by apply elem_of_nil in Hin.
  - by apply elem_of_nil in Hin.
Qed.

Lemma relayMessage_no_close (werr : Conn -> bool) (reg : Registry)
    (sessionID fromDevice : string) (msg : SyncMessage) (c : Conn) :
  EvClose c ∉ events_of (relayMessage werr reg sessionID fromDevice msg).
Proof.
  destruct (decide (sessionsMu reg = WLocked)) as [Hmu|Hmu].
  - rewrite relayMessage_blocked by done. simpl. by intros ?%elem_of_nil.
  - rewrite relayMessage_returns by done. simpl.
    destruct (sessions reg !! sessionID).
    + apply relay_loop_no_close.
    + intros Hin. apply elem_of_cons in Hin as [Hin|Hin]; [discriminate|].
      by apply elem_of_nil in Hin.
Qed.

(** C3 (amended).  A decoded message whose type is none of the [case]s of
    the handler's [switch] is dropped: nothing is written to any connection
    (the sender gets no answer, no participant gets the message), the
    registry is unchanged, and the loop goes on to the next message, so the
    connection stays open.  A decoded message of a relayed type without
    [sessionId] is not dropped: it is passed to [relayMessage] with the
    empty string as session id; unless the call waits on the lock it is
    written to every other participant of the session registered under the
    empty id and the loop goes on to the next message; no connection is
    closed. *)
Theorem C3_unknown_type_dropped_without_reply (now : Z) (werr : Conn -> bool)
    (reg : Registry) (conn : Conn) (msg : SyncMessage) :
  (MsgType msg ≠ "JOIN" -> MsgType msg ∉ relayed_types ->
   MsgType msg ≠ "PING" ->
   dispatch now werr reg conn msg = Returns reg [] /\
   forall sessionID deviceID rest,
     handler_loop werr reg conn sessionID deviceID ((now, msg) :: rest) =
       handler_loop werr reg conn (MsgSessionID msg) (FromDevice msg) rest) /\
  (MsgSessionID msg = EmptyString -> MsgType msg ∈ relayed_types ->
   dispatch now werr reg conn msg =
     relayMessage werr reg EmptyString (FromDevice msg) msg /\
   (forall c, EvClose c ∉ events_of (dispatch now werr reg conn msg)) /\
   (sessionsMu reg ≠ WLocked ->
    (forall session deviceID c,
       sessions reg !! EmptyString = Some session ->
       Connections session !! deviceID = Some c ->
       deviceID ≠ FromDevice msg ->
       (c, msg) ∈ written (events_of (dispatch now werr reg conn msg))) /\
    exists evs,
      dispatch now werr reg conn msg = Returns reg evs /\
      forall sessionID deviceID rest,
        handler_loop werr reg conn sessionID deviceID ((now, msg) :: rest) =
          then_ evs
            (handler_loop werr reg conn EmptyString (FromDevice msg) rest))).
Proof.
  split.
  - intros Hj Hr Hp.
    assert (dispatch now werr reg conn msg = Returns reg []) as Hd.
    { unfold dispatch. by rewrite !decide_False. }
    split; [exact Hd|]. intros sessionID deviceID rest. simpl. rewrite Hd.
    simpl. by destruct (handler_loop _ _ _ _ _ _).
  - intros Hs Hr.
    assert (dispatch now werr reg conn msg =
              relayMessage werr reg EmptyString (FromDevice msg) msg) as Hd.
    { unfold dispatch. rewrite Hs.
      destruct (decide (MsgType msg = "JOIN")) as [Hj|Hj].
      { exfalso. rewrite Hj in Hr. revert Hr. unfold relayed_types.
        rewrite !elem_of_cons, elem_of_nil. intuition discriminate. }
      by rewrite decide_True. }
    split; [exact Hd|]. split.
    { intros c. rewrite Hd. apply relayMessage_no_close. }
    intros Hmu. split.
    + intros session deviceID c Hsess Hc Hne. rewrite Hd.
      apply relayMessage_written_iff. split; [done|]. split; [done|].
      by exists session, deviceID.
    + rewrite relayMessage_returns in Hd by done.
      eexists. split; [exact Hd|]. intros sessionID deviceID rest.
      cbn [handler_loop]. by rewrite Hd, Hs.
Qed.

Lemma bogus_message_unknown :
  MsgType bogus_message ≠ "JOIN" /\ (MsgType bogus_message ∉ relayed_types) /\
  MsgType bogus_message ≠ "PING".
Proof.
  split; [discriminate|]. split; [|discriminate].
  unfold relayed_types. rewrite !elem_of_cons, elem_of_nil.
  intuition discriminate.
Qed.

Lemma C3_unknown_type_dropped_without_reply_witness :
  (MsgType bogus_message ≠ "JOIN" /\ (MsgType bogus_message ∉ relayed_types) /\
   MsgType bogus_message ≠ "PING") /\
  dispatch 0 no_write_error sample_registry 1%positive bogus_message =
    Returns sample_registry [] /\
  (MsgSessionID no_session_message = EmptyString /\
   MsgType no_session_message ∈ relayed_types /\
   sessionsMu unnamed_registry ≠ WLocked) /\
  dispatch 0 no_write_error unnamed_registry 1%positive no_session_message =
    relayMessage no_write_error unnamed_registry EmptyString "d1"
      no_session_message /\
  (2%positive, no_session_message) ∈
    written (events_of (dispatch 0 no_write_error unnamed_registry 1%positive
                          no_session_message)).
Proof.
  pose proof bogus_message_unknown as (Hj & Hr & Hp).
  pose proof (C3_unknown_type_dropped_without_reply 0 no_write_error
                sample_registry 1%positive bogus_message) as (Hdrop & _).
  pose proof (C3_unknown_type_dropped_without_reply 0 no_write_error
                unnamed_registry 1%positive no_session_message)
    as (_ & Hrelay).
  assert (MsgType no_session_message ∈ relayed_types) as Hty
    by apply list_elem_of_here.
  assert (sessionsMu unnamed_registry ≠ WLocked) as Hmu by discriminate.
  destruct (Hrelay eq_refl Hty) as (Hd & _ & Hfree).
  destruct (Hfree Hmu) as (Hall & _).
  split; [exact (conj Hj (conj Hr Hp))|].
  split; [exact (proj1 (Hdrop Hj Hr Hp))|].
  split; [exact (conj eq_refl (conj Hty Hmu))|].
  split; [exact Hd|].
  apply (Hall unnamed_session "d2" 2%positive);
    [reflexivity | reflexivity | discriminate].
Defined.

(** C3, the claim as stated, fails at both kinds of malformed envelope:
    the message of unknown type gets no ERROR answer (nothing at all is
    written to its sender's connection), and the message without
    [sessionId] is not dropped but relayed to the other device of the
    session with the empty id. *)
Lemma C3_malformed_envelope_counterexample :
  (MsgType bogus_message ∉ "JOIN" :: "PING" :: "PONG" :: relayed_types) /\
  written (events_of (dispatch 0 no_write_error sample_registry 1%positive
                        bogus_message)) = [] /\
  ~ (exists m,
       (1%positive, m) ∈
         written (events_of (dispatch 0 no_write_error sample_registry
                               1%positive bogus_message)) /\
       MsgType m = "ERROR") /\
  MsgSessionID no_session_message = EmptyString /\
  (2%positive, no_session_message) ∈
    written (events_of (dispatch 0 no_write_error unnamed_registry 1%positive
                          no_session_message)).
Proof.
  split.
  { unfold relayed_types. rewrite !elem_of_cons, elem_of_nil.
    intuition discriminate. }
  split; [reflexivity|]. split.
  { intros (m & Hin & _). vm_compute in Hin. by apply elem_of_nil in Hin. }
  split; [reflexivity|]. vm_compute. apply list_elem_of_here.
Qed.

(** * Further properties of the sync engine *)

(** ** A batch never fails, never removes a row, keeps the table keyed *)

Lemma filter_none {A : Type} (P : A -> Prop) `{forall x, Decision (P x)}
    (l : list A) :
  (forall x, x ∈ l -> ~ P x) -> filter P l = [].
Proof.
  induction l as [|x l IH]; intros Hl; [reflexivity|].
  rewrite filter_cons_False by (apply Hl; by left).
  apply IH. intros y Hy. apply Hl. by right.
Qed.

Lemma merge_rows_frame (wins : Todo -> Todo -> bool) (versions : list Todo)
    (x : Todo) :
  exists y, merge_rows wins (Some x) versions = Some y /\ same_frame x y.
Proof.
  revert x. induction versions as [|v rest IH]; intros x.
  - exists x. split; [reflexivity|apply same_frame_refl].
  - rewrite merge_rows_cons.
    destruct (IH (merge_row wins (Some x) v)) as (y & Hy & Hf).
    exists y. split; [exact Hy|].
    eapply same_frame_trans; [apply merge_row_frame|exact Hf].
Qed.

Lemma merge_store_dom (wins : Todo -> Todo -> bool) (db : DB) (todo : Todo) :
  dom (merge_store wins db todo) = {[ id todo ]} ∪ dom db.
Proof. unfold merge_store. apply dom_insert_L. Qed.

Lemma foldl_merge_store_dom (wins : Todo -> Todo -> bool) (todos : list Todo)
    (db : DB) :
  dom (foldl (merge_store wins) db todos) =
    dom db ∪ list_to_set (id <$> todos).
Proof.
  revert db. induction todos as [|todo rest IH]; intros db; simpl.
  - by rewrite (right_id_L ∅ (∪)).
  - rewrite IH, merge_store_dom.
    rewrite (comm_L (∪) {[id todo]} (dom db)). by rewrite (assoc_L (∪)).
Qed.

Lemma merge_store_keyed (wins : Todo -> Todo -> bool) (db : DB) (todo : Todo) :
  keyed_by_id db -> keyed_by_id (merge_store wins db todo).
Proof.
  intros Hk k row. rewrite merge_store_lookup. case_decide as Hid.
  - subst k. intros [= <-]. unfold merge_row.
    destruct (db !! id todo) as [l|] eqn:Hl; [|reflexivity].
    destruct (wins l todo); simpl; by apply Hk.
  - apply Hk.
Qed.

Lemma foldl_merge_store_keyed (wins : Todo -> Todo -> bool)
    (todos : list Todo) (db : DB) :
  keyed_by_id db -> keyed_by_id (foldl (merge_store wins) db todos).
Proof.
  revert db. induction todos as [|todo rest IH]; intros db Hk; simpl.
  - exact Hk.
  - apply IH. by apply merge_store_keyed.
Qed.

Lemma batch_grows (mergeTodo : DB -> Todo -> option DB)
    (wins : Todo -> Todo -> bool) :
  (forall db todo, mergeTodo db todo = Some (merge_store wins db todo)) ->
  forall db todos,
    exists db',
      handleSyncData mergeTodo db todos = Some db' /\
      dom db' = dom db ∪ list_to_set (id <$> todos) /\
      (forall k row, db !! k = Some row ->
         exists row', db' !! k = Some row' /\ same_frame row row') /\
      (forall k, k ∉ id <$> todos -> db' !! k = db !! k) /\
      (keyed_by_id db -> keyed_by_id db').
Proof.
  intros Hm db todos. exists (foldl (merge_store wins) db todos).
  split; [by apply handleSyncData_store|].
  split; [apply foldl_merge_store_dom|]. split; [|split].
  - intros k row Hrow. rewrite foldl_merge_store_lookup, Hrow.
    apply merge_rows_frame.
  - intros k Hk. rewrite foldl_merge_store_lookup.
    assert (versions_of k todos = []) as ->; [|reflexivity].
    unfold versions_of. apply filter_none.
    intros todo Hin Hid. apply Hk. apply list_elem_of_fmap. by exists todo.
  - apply foldl_merge_store_keyed.
Qed.

(** A SYNC_DATA batch is always merged to the end (no merge hits the
    primary-key error of [insertTodo]); afterwards the table holds exactly
    the ids it held plus the ids of the batch, every row that was stored
    keeps its [id], [created_at], [device_id] and [synced], rows whose id
    the batch does not mention are untouched, and a table keyed by the [id]
    of its rows stays so.  For both definitions of [mergeTodo]. *)
Theorem handleSyncData_grows_table (db : DB) (todos : list Todo) :
  (exists db',
     handleSyncData SyncEngine.mergeTodo db todos = Some db' /\
     dom db' = dom db ∪ list_to_set (id <$> todos) /\
     (forall k row, db !! k = Some row ->
        exists row', db' !! k = Some row' /\ same_frame row row') /\
     (forall k, k ∉ id <$> todos -> db' !! k = db !! k) /\
     (keyed_by_id db -> keyed_by_id db')) /\
  (exists db',
     handleSyncData ConflictResolution.mergeTodo db todos = Some db' /\
     dom db' = dom db ∪ list_to_set (id <$> todos) /\
     (forall k row, db !! k = Some row ->
        exists row', db' !! k = Some row' /\ same_frame row row') /\
     (forall k, k ∉ id <$> todos -> db' !! k = db !! k) /\
     (keyed_by_id db -> keyed_by_id db')).
Proof.
  split.
  - apply (batch_grows _ lww_wins), SyncEngine_mergeTodo_store.
  - apply (batch_grows _ tiebreak_wins), ConflictResolution_mergeTodo_store.
Qed.

Lemma tie_db_keyed : keyed_by_id tie_db.
Proof.
  intros k row H. unfold tie_db in H.
  apply lookup_singleton_Some in H as [<- <-]. reflexivity.
Qed.

Lemma handleSyncData_grows_table_witness :
  tie_db !! "rec-1" = Some tie_local /\ keyed_by_id tie_db /\
  exists db',
    handleSyncData SyncEngine.mergeTodo tie_db [newer_incoming; sample_todo 7]
      = Some db' /\
    dom db' = {[ "rec-1"; "rec-7" ]} /\
    (exists row', db' !! "rec-1" = Some row' /\ same_frame tie_local row') /\
    keyed_by_id db'.
Proof.
  split; [reflexivity|]. split; [exact tie_db_keyed|].
  destruct (handleSyncData_grows_table tie_db [newer_incoming; sample_todo 7])
    as [(db' & Hrun & Hdom & Hframe & _ & Hkeyed) _].
  exists db'. split; [exact Hrun|]. split.
  { rewrite Hdom. unfold tie_db. rewrite dom_singleton_L.
    change (id <$> [newer_incoming; sample_todo 7]) with ["rec-1"; "rec-7"].
    simpl. rewrite (right_id_L ∅ (∪)). rewrite (assoc_L (∪)).
    by rewrite (idemp_L (∪)). }
  split; [exact (Hframe "rec-1" tie_local eq_refl)|].
  exact (Hkeyed tie_db_keyed).
Defined.

(** ** Two versions of one record, in either order *)

Lemma payload_eq_refl (a : Todo) : payload_eq a a.
Proof. unfold payload_eq. tauto. Qed.

Lemma lww_row_order (o : option Todo) (r1 r2 : Todo) :
  updated_at r1 ≠ updated_at r2 ->
  payload_eq (merge_row lww_wins (Some (merge_row lww_wins o r1)) r2)
             (merge_row lww_wins (Some (merge_row lww_wins o r2)) r1) /\
  (is_Some o ->
   merge_row lww_wins (Some (merge_row lww_wins o r1)) r2 =
   merge_row lww_wins (Some (merge_row lww_wins o r2)) r1).
Proof.
  intros Hne. destruct o as [l|]; unfold merge_row, lww_wins; simpl.
  - assert (forall a b : Todo, a = b -> payload_eq a b /\ (is_Some (Some l) -> a = b))
      as Hsame by (intros a b ->; split; [apply payload_eq_refl|done]).
    destruct (Z.gtb_spec (updated_at r1) (updated_at l));
      destruct (Z.gtb_spec (updated_at r2) (updated_at l)); simpl;
      repeat (match goal with
              | |- context [(?a >? ?b)%Z] => destruct (Z.gtb_spec a b)
              end; simpl); try lia; by apply Hsame.
  - split; [|by intros [? ?]].
    destruct (Z.gtb_spec (updated_at r2) (updated_at r1));
      destruct (Z.gtb_spec (updated_at r1) (updated_at r2)); simpl; try lia;
      unfold payload_eq; simpl; tauto.
Qed.

Lemma tiebreak_row_order (o : option Todo) (r1 r2 : Todo) :
  updated_at r1 ≠ updated_at r2 ->
  payload_eq (merge_row tiebreak_wins (Some (merge_row tiebreak_wins o r1)) r2)
             (merge_row tiebreak_wins (Some (merge_row tiebreak_wins o r2)) r1) /\
  (is_Some o ->
   merge_row tiebreak_wins (Some (merge_row tiebreak_wins o r1)) r2 =
   merge_row tiebreak_wins (Some (merge_row tiebreak_wins o r2)) r1).
Proof.
  intros Hne. destruct o as [l|]; unfold merge_row, tiebreak_wins; simpl.
  - assert (forall a b : Todo, a = b -> payload_eq a b /\ (is_Some (Some l) -> a = b))
      as Hsame by (intros a b ->; split; [apply payload_eq_refl|done]).
    repeat (match goal with
            | |- context [(?a >? ?b)%Z] => destruct (Z.gtb_spec a b)
            | |- context [(?a <? ?b)%Z] => destruct (Z.ltb_spec a b)
            | |- context [String.ltb ?a ?b] => destruct (String.ltb a b) eqn:?
            end; simpl in *); try lia; try congruence; by apply Hsame.
  - split; [|by intros [? ?]].
    repeat (match goal with
            | |- context [(?a >? ?b)%Z] => destruct (Z.gtb_spec a b)
            | |- context [(?a <? ?b)%Z] => destruct (Z.ltb_spec a b)
            | |- context [String.ltb ?a ?b] => destruct (String.ltb a b) eqn:?
            end; simpl in *); try lia; unfold payload_eq; simpl; tauto.
Qed.

Lemma two_versions_either_order (mergeTodo : DB -> Todo -> option DB)
    (wins : Todo -> Todo -> bool) :
  (forall db todo, mergeTodo db todo = Some (merge_store wins db todo)) ->
  (forall o r1 r2, updated_at r1 ≠ updated_at r2 ->
     payload_eq (merge_row wins (Some (merge_row wins o r1)) r2)
                (merge_row wins (Some (merge_row wins o r2)) r1) /\
     (is_Some o ->
      merge_row wins (Some (merge_row wins o r1)) r2 =
      merge_row wins (Some (merge_row wins o r2)) r1)) ->
  forall db r1 r2,
    id r1 = id r2 -> updated_at r1 ≠ updated_at r2 ->
    exists dba dbb ra rb,
      handleSyncData mergeTodo db [r1; r2] = Some dba /\
      handleSyncData mergeTodo db [r2; r1] = Some dbb /\
      dba !! id r1 = Some ra /\ dbb !! id r1 = Some rb /\
      payload_eq ra rb /\
      (forall k, k ≠ id r1 -> dba !! k = dbb !! k) /\
      (is_Some (db !! id r1) -> dba = dbb).
Proof.
  intros Hm Hrow db r1 r2 Hid Hne.
  destruct (Hrow (db !! id r1) r1 r2 Hne) as [Hp Heq].
  assert (forall k, k ≠ id r1 ->
            merge_store wins (merge_store wins db r1) r2 !! k =
            merge_store wins (merge_store wins db r2) r1 !! k) as Hother.
  { intros k Hk. rewrite !merge_store_lookup, <- !Hid.
    by rewrite !decide_False by done. }
  assert (merge_store wins (merge_store wins db r1) r2 !! id r1 =
            Some (merge_row wins (Some (merge_row wins (db !! id r1) r1)) r2))
    as Ha.
  { rewrite !merge_store_lookup, <- !Hid. by rewrite !decide_True by done. }
  assert (merge_store wins (merge_store wins db r2) r1 !! id r1 =
            Some (merge_row wins (Some (merge_row wins (db !! id r1) r2)) r1))
    as Hb.
  { rewrite !merge_store_lookup, <- !Hid. by rewrite !decide_True by done. }
  eexists _, _, _, _. simpl. rewrite !Hm.
  split; [reflexivity|]. split; [reflexivity|].
  split; [exact Ha|]. split; [exact Hb|]. split; [exact Hp|].
  split; [exact Hother|].
  intros Hsome. apply map_eq. intros k.
  destruct (decide (k = id r1)) as [->|Hk]; [|by apply Hother].
  rewrite Ha, Hb. f_equal. by apply Heq.
Qed.

(** Two versions of one record with different [updated_at] can be merged in
    either order: the row left under their id has the same payload columns,
    [updated_at] and [deleted] both ways, every other row is the same, and if
    the record was already stored the two tables are equal.  (If it was not,
    [created_at] and [device_id] are those of whichever version came first.)
    For both definitions of [mergeTodo]. *)
Theorem merge_two_versions_either_order (db : DB) (r1 r2 : Todo) :
  id r1 = id r2 -> updated_at r1 ≠ updated_at r2 ->
  (exists dba dbb ra rb,
     handleSyncData SyncEngine.mergeTodo db [r1; r2] = Some dba /\
     handleSyncData SyncEngine.mergeTodo db [r2; r1] = Some dbb /\
     dba !! id r1 = Some ra /\ dbb !! id r1 = Some rb /\
     payload_eq ra rb /\
     (forall k, k ≠ id r1 -> dba !! k = dbb !! k) /\
     (is_Some (db !! id r1) -> dba = dbb)) /\
  (exists dba dbb ra rb,
     handleSyncData ConflictResolution.mergeTodo db [r1; r2] = Some dba /\
     handleSyncData ConflictResolution.mergeTodo db [r2; r1] = Some dbb /\
     dba !! id r1 = Some ra /\ dbb !! id r1 = Some rb /\
     payload_eq ra rb /\
     (forall k, k ≠ id r1 -> dba !! k = dbb !! k) /\
     (is_Some (db !! id r1) -> dba = dbb)).
Proof.
  intros Hid Hne. split.
  - by apply (two_versions_either_order _ lww_wins
                SyncEngine_mergeTodo_store lww_row_order).
  - by apply (two_versions_either_order _ tiebreak_wins
                ConflictResolution_mergeTodo_store tiebreak_row_order).
Qed.

Lemma merge_two_versions_either_order_witness :
  id tie_incoming = id newer_incoming /\
  updated_at tie_incoming ≠ updated_at newer_incoming /\
  exists dba dbb ra rb,
    handleSyncData SyncEngine.mergeTodo ∅ [tie_incoming; newer_incoming]
      = Some dba /\
    handleSyncData SyncEngine.mergeTodo ∅ [newer_incoming; tie_incoming]
      = Some dbb /\
    dba !! "rec-1" = Some ra /\ dbb !! "rec-1" = Some rb /\
    payload_eq ra rb.
Proof.
  assert (updated_at tie_incoming ≠ updated_at newer_incoming) as Hne
    by discriminate.
  split; [reflexivity|]. split; [exact Hne|].
  destruct (merge_two_versions_either_order ∅ tie_incoming newer_incoming
              eq_refl Hne)
    as [(dba & dbb & ra & rb & Ha & Hb & Hra & Hrb & Hp & _) _].
  exists dba, dbb, ra, rb. auto.
Defined.

(** ** Reading the table: requested rows, all ids, metadata *)

Lemma keyed_ids (db : DB) :
  keyed_by_id db -> id <$> (snd <$> map_to_list db) = (map_to_list db).*1.
Proof.
  intros Hk. rewrite <- list_fmap_compose. apply Forall_fmap_ext, Forall_forall.
  intros [k row] Hin. apply elem_of_map_to_list in Hin. simpl. by apply Hk.
Qed.

Lemma rows_elem_of (db : DB) (row : Todo) :
  row ∈ snd <$> map_to_list db <-> exists k, db !! k = Some row.
Proof.
  split.
  - intros Hin. apply list_elem_of_fmap in Hin as ([k r] & -> & Hin).
    exists k. by apply elem_of_map_to_list.
  - intros [k Hk]. apply list_elem_of_fmap. exists (k, row).
    split; [done|]. by apply elem_of_map_to_list.
Qed.

Lemma NoDup_fmap_filter {A B : Type} (f : A -> B) (P : A -> Prop)
    `{forall x, Decision (P x)} (l : list A) :
  NoDup (f <$> l) -> NoDup (f <$> filter P l).
Proof.
  induction l as [|x l IH]; intros Hl; [done|].
  rewrite fmap_cons in Hl. apply NoDup_cons in Hl as [Hx Hl].
  rewrite filter_cons. case_decide; [|by apply IH].
  rewrite fmap_cons. apply NoDup_cons. split; [|by apply IH].
  intros Hin. apply Hx. apply list_elem_of_fmap in Hin as (y & -> & Hy).
  apply list_elem_of_fmap. exists y. split; [done|].
  by apply list_elem_of_filter in Hy as [_ ?].
Qed.

Lemma getTodosByIds_elem_of (db : DB) (ids : list string) (row : Todo) :
  row ∈ getTodosByIds db ids <->
  (exists k, db !! k = Some row) /\ id row ∈ ids.
Proof.
  unfold getTodosByIds. rewrite list_elem_of_filter, rows_elem_of. tauto.
Qed.

Lemma getTodosByIds_NoDup (db : DB) (ids : list string) :
  keyed_by_id db -> NoDup (id <$> getTodosByIds db ids).
Proof.
  intros Hk. unfold getTodosByIds. apply NoDup_fmap_filter.
  rewrite keyed_ids by done. apply NoDup_fst_map_to_list.
Qed.

(** [getTodosByIds] returns exactly the stored rows whose id is requested,
    tombstones included: an id that is not stored is skipped without error,
    and an id requested twice is returned once (in a keyed table the ids of
    the result are distinct, and there are at most as many as rows). *)
Theorem getTodosByIds_requested_rows (db : DB) (ids : list string) :
  (forall row,
     row ∈ getTodosByIds db ids <->
     (exists k, db !! k = Some row) /\ id row ∈ ids) /\
  (keyed_by_id db -> NoDup (id <$> getTodosByIds db ids)) /\
  (length (getTodosByIds db ids) <= size db)%nat.
Proof.
  split; [|split].
  - intros row. apply getTodosByIds_elem_of.
  - apply getTodosByIds_NoDup.
  - apply getTodosByIds_length_le.
Qed.

Lemma getTodosByIds_requested_rows_witness :
  keyed_by_id tie_db /\
  NoDup (id <$> getTodosByIds tie_db ["rec-1"; "rec-1"; "rec-9"]) /\
  (tie_local ∈ getTodosByIds tie_db ["rec-1"; "rec-1"; "rec-9"]).
Proof.
  destruct (getTodosByIds_requested_rows tie_db ["rec-1"; "rec-1"; "rec-9"])
    as (Hin & Hnodup & _).
  split; [exact tie_db_keyed|]. split; [exact (Hnodup tie_db_keyed)|].
  apply Hin. split; [by exists "rec-1"|]. apply list_elem_of_here.
Defined.

Lemma getAllTodoIds_length (db : DB) : length (getAllTodoIds db) = size db.
Proof.
  unfold getAllTodoIds. rewrite merge_sort_Permutation, !length_fmap.
  apply length_map_to_list.
Qed.

Lemma getAllTodoIds_elem_of (db : DB) (k : string) :
  keyed_by_id db -> k ∈ getAllTodoIds db <-> is_Some (db !! k).
Proof.
  intros Hk. unfold getAllTodoIds.
  rewrite merge_sort_Permutation, keyed_ids by done. split.
  - intros Hin. apply list_elem_of_fmap in Hin as ([k' row] & -> & Hin).
    apply elem_of_map_to_list in Hin. eauto.
  - intros [row Hrow]. apply list_elem_of_fmap. exists (k, row).
    split; [done|]. by apply elem_of_map_to_list.
Qed.

(** [getAllTodoIds] lists the id of every stored row, deleted or not, in
    ascending order; in a keyed table these are the keys, each once. *)
Theorem getAllTodoIds_sorted_ids (db : DB) :
  Sorted String.le (getAllTodoIds db) /\
  length (getAllTodoIds db) = size db /\
  (forall k row, db !! k = Some row -> id row ∈ getAllTodoIds db) /\
  (keyed_by_id db ->
   NoDup (getAllTodoIds db) /\
   forall k, k ∈ getAllTodoIds db <-> is_Some (db !! k)).
Proof.
  unfold getAllTodoIds.
  pose proof (merge_sort_Permutation String.le
                (id <$> (snd <$> map_to_list db))) as Hperm.
  split; [apply Sorted_merge_sort, _|]. split; [|split].
  - rewrite Hperm, !length_fmap. apply length_map_to_list.
  - intros k row Hrow. rewrite Hperm. apply list_elem_of_fmap.
    exists row. split; [done|]. apply rows_elem_of. by exists k.
  - intros Hk. split.
    + rewrite Hperm, keyed_ids by done. apply NoDup_fst_map_to_list.
    + intros k. by apply getAllTodoIds_elem_of.
Qed.

Lemma getAllTodoIds_sorted_ids_witness :
  keyed_by_id tie_db /\ NoDup (getAllTodoIds tie_db) /\
  ("rec-1" ∈ getAllTodoIds tie_db <-> is_Some (tie_db !! "rec-1")).
Proof.
  destruct (getAllTodoIds_sorted_ids tie_db) as (_ & _ & _ & Hk).
  destruct (Hk tie_db_keyed) as [Hnodup Hin].
  split; [exact tie_db_keyed|]. split; [exact Hnodup|exact (Hin "rec-1")].
Defined.

Lemma String_ltb_false_le (m s : string) :
  String.ltb m s = false -> String.le s m.
Proof.
  unfold String.le, String.ltb, String.leb.
  rewrite (String.compare_antisym m s).
  destruct (String.compare s m); simpl; done.
Qed.

Lemma String_ltb_true_le (m s : string) :
  String.ltb m s = true -> String.le m s.
Proof.
  unfold String.le, String.ltb, String.leb.
  destruct (String.compare m s); simpl; done.
Qed.

Lemma max_text_ge (l : list string) (s : string) :
  s ∈ l -> exists m, max_text l = Some m /\ String.le s m.
Proof.
  induction l as [|x l IH]; intros Hin; [by apply elem_of_nil in Hin|].
  simpl. apply elem_of_cons in Hin as [->|Hin].
  - destruct (max_text l) as [m|]; [|by exists x].
    destruct (String.ltb m x) eqn:Hlt.
    + by exists x.
    + exists m. split; [done|]. by apply String_ltb_false_le.
  - destruct (IH Hin) as (m & -> & Hle).
    destruct (String.ltb m x) eqn:Hlt.
    + exists x. split; [done|]. etrans; [exact Hle|].
      by apply String_ltb_true_le.
    + by exists m.
Qed.

Lemma max_integer_ge (l : list Z) (z : Z) :
  z ∈ l -> exists m, max_integer l = Some m /\ (z <= m)%Z.
Proof.
  induction l as [|x l IH]; intros Hin; [by apply elem_of_nil in Hin|].
  simpl. apply elem_of_cons in Hin as [->|Hin].
  - destruct (max_integer l) as [m|]; eexists; (split; [reflexivity|lia]).
  - destruct (IH Hin) as (m & -> & Hle). eexists. split; [reflexivity|lia].
Qed.

Lemma active_rows_elem_of (db : DB) (row : Todo) :
  row ∈ active_rows db <-> (exists k, db !! k = Some row) /\ deleted row = 0%Z.
Proof.
  unfold active_rows. rewrite list_elem_of_filter, rows_elem_of. tauto.
Qed.

(** [getSyncMetadata] describes the rows that are not deleted: [todoCount]
    is their number, so it never exceeds the number of ids that
    [getAllTodoIds] announces; no such row is newer than [lastModified] or
    has an id above [topId] ([topId] is null only if that id is the empty
    string); and a table with nothing but tombstones reports
    [(null, 0, 0)] like an empty one. *)
Theorem getSyncMetadata_active_rows (db : DB) :
  (0 <= todoCount (getSyncMetadata db)
     <= Z.of_nat (length (getAllTodoIds db)))%Z /\
  (forall k row,
     db !! k = Some row -> deleted row = 0%Z ->
     (updated_at row <= lastModified (getSyncMetadata db))%Z /\
     (0 < todoCount (getSyncMetadata db))%Z /\
     match topId (getSyncMetadata db) with
     | Some top => String.le (id row) top
     | None => id row = EmptyString
     end) /\
  ((forall k row, db !! k = Some row -> deleted row ≠ 0%Z) ->
   getSyncMetadata db =
     {| topId := None; lastModified := 0; todoCount := 0 |}).
Proof.
  split; [|split].
  - unfold getSyncMetadata. cbn [todoCount].
    rewrite getAllTodoIds_length.
    split; [lia|]. apply inj_le. unfold active_rows.
    etrans; [apply length_filter|].
    by rewrite length_fmap, length_map_to_list.
  - intros k row Hrow Hdel.
    assert (row ∈ active_rows db) as Hin
      by (apply active_rows_elem_of; eauto).
    unfold getSyncMetadata. cbn [todoCount lastModified topId].
    split; [|split].
    + destruct (max_integer_ge (updated_at <$> active_rows db) (updated_at row))
        as (m & -> & Hle); [|exact Hle].
      apply list_elem_of_fmap. by exists row.
    + destruct (active_rows db); [by apply elem_of_nil in Hin|]. simpl. lia.
    + destruct (max_text_ge (id <$> active_rows db) (id row))
        as (m & -> & Hle).
      { apply list_elem_of_fmap. by exists row. }
      case_decide as Hm; [|exact Hle]. subst m.
      apply (anti_symm String.le); [exact Hle|].
      by destruct (id row).
  - intros Hall. unfold getSyncMetadata.
    assert (active_rows db = []) as ->; [|reflexivity].
    unfold active_rows. apply filter_none. intros row Hin Hdel.
    apply rows_elem_of in Hin as [k Hk]. by apply (Hall k row).
Qed.

Lemma getSyncMetadata_active_rows_witness :
  tie_db !! "rec-1" = Some tie_local /\ deleted tie_local = 0%Z /\
  (updated_at tie_local <= lastModified (getSyncMetadata tie_db))%Z /\
  (0 < todoCount (getSyncMetadata tie_db))%Z.
Proof.
  destruct (getSyncMetadata_active_rows tie_db) as (_ & Hactive & _).
  destruct (Hactive "rec-1" tie_local eq_refl eq_refl) as (Hl & Hc & _).
  split; [reflexivity|]. split; [reflexivity|]. split; [exact Hl|exact Hc].
Defined.

(** ** Metadata exchange *)

Lemma needFromRemote_elem_of (my remote : list string) (k : string) :
  k ∈ needFromRemote my remote <-> k ∈ remote /\ k ∉ my.
Proof. unfold needFromRemote. rewrite list_elem_of_filter. tauto. Qed.

Lemma remoteNeeds_elem_of (my remote : list string) (k : string) :
  k ∈ remoteNeeds my remote <-> k ∈ my /\ k ∉ remote.
Proof. unfold remoteNeeds. rewrite list_elem_of_filter. tauto. Qed.

Lemma length_zero_iff_no_elem {A : Type} (l : list A) :
  length l = 0%nat <-> forall x, x ∉ l.
Proof.
  destruct l as [|x l]; simpl; split; try done.
  - intros _ x Hx. by apply elem_of_nil in Hx.
  - intros H. exfalso. apply (H x). by left.
Qed.

(** [handleMetadataExchange] exchanges only ids that one side lacks.  A
    REQUEST_SYNC names exactly the announced ids that are not stored
    locally, a SYNC_DATA pushes only stored rows whose id the peer did not
    announce; so a record that both sides hold is neither requested nor
    sent, whatever its versions are.  The session is completed (and the
    socket closed) exactly when both sides announce the same ids, and then
    nothing else is sent. *)
Theorem handleMetadataExchange_missing_ids_only (now1 now2 : Z) (db : DB)
    (remoteTodoIds : list string) :
  (forall type need,
     SendMessage type (NeedIds need)
       ∈ handleMetadataExchange now1 now2 db remoteTodoIds ->
     type = "REQUEST_SYNC" /\
     forall k, k ∈ need <-> k ∈ remoteTodoIds /\ k ∉ getAllTodoIds db) /\
  (forall type todos,
     SendMessage type (Todos todos)
       ∈ handleMetadataExchange now1 now2 db remoteTodoIds ->
     type = "SYNC_DATA" /\
     forall row, row ∈ todos ->
       (exists k, db !! k = Some row) /\ id row ∉ remoteTodoIds) /\
  (CloseSocket ∈ handleMetadataExchange now1 now2 db remoteTodoIds <->
   forall k, k ∈ remoteTodoIds <-> k ∈ getAllTodoIds db) /\
  ((forall k, k ∈ remoteTodoIds <-> k ∈ getAllTodoIds db) ->
   handleMetadataExchange now1 now2 db remoteTodoIds =
     completeSyncSession now1 now2).
Proof.
  unfold handleMetadataExchange.
  set (my := getAllTodoIds db).
  set (need := needFromRemote my remoteTodoIds).
  set (offer := remoteNeeds my remoteTodoIds).
  assert ((length need = 0%nat /\ length offer = 0%nat) <->
          (forall k, k ∈ remoteTodoIds <-> k ∈ my)) as Hsame.
  { unfold need, offer. rewrite !length_zero_iff_no_elem. split.
    - intros [Hn Ho] k. specialize (Hn k). specialize (Ho k).
      rewrite needFromRemote_elem_of in Hn.
      rewrite remoteNeeds_elem_of in Ho.
      destruct (decide (k ∈ my)), (decide (k ∈ remoteTodoIds)); tauto.
    - intros Hk. split; intros k Hin.
      + apply needFromRemote_elem_of in Hin. specialize (Hk k). tauto.
      + apply remoteNeeds_elem_of in Hin. specialize (Hk k). tauto. }
  split; [|split; [|split]].
  - intros type l Hin.
    apply elem_of_app in Hin as [Hin|Hin].
    { case_decide; [|by apply elem_of_nil in Hin].
      apply list_elem_of_singleton in Hin. injection Hin as -> ->.
      split; [done|]. intros k. apply needFromRemote_elem_of. }
    apply elem_of_app in Hin as [Hin|Hin].
    { case_decide; [|by apply elem_of_nil in Hin].
      by apply list_elem_of_singleton in Hin. }
    case_decide; [|by apply elem_of_nil in Hin].
    unfold completeSyncSession in Hin.
    repeat (apply elem_of_cons in Hin as [Hin|Hin]; [discriminate|]).
    by apply elem_of_nil in Hin.
  - intros type l Hin.
    apply elem_of_app in Hin as [Hin|Hin].
    { case_decide; [|by apply elem_of_nil in Hin].
      by apply list_elem_of_singleton in Hin. }
    apply elem_of_app in Hin as [Hin|Hin].
    { case_decide; [|by apply elem_of_nil in Hin].
      apply list_elem_of_singleton in Hin. injection Hin as -> ->.
      split; [done|]. intros row Hrow.
      apply getTodosByIds_elem_of in Hrow as [Hstored Hid].
      split; [done|]. apply remoteNeeds_elem_of in Hid. tauto. }
    case_decide; [|by apply elem_of_nil in Hin].
    unfold completeSyncSession in Hin.
    repeat (apply elem_of_cons in Hin as [Hin|Hin]; [discriminate|]).
    by apply elem_of_nil in Hin.
  - rewrite <- Hsame. split.
    + intros Hin.
      apply elem_of_app in Hin as [Hin|Hin].
      { case_decide; [|by apply elem_of_nil in Hin].
        by apply list_elem_of_singleton in Hin. }
      apply elem_of_app in Hin as [Hin|Hin].
      { case_decide; [|by apply elem_of_nil in Hin].
        by apply list_elem_of_singleton in Hin. }
      case_decide; [done|by apply elem_of_nil in Hin].
    + intros Hz. rewrite !elem_of_app. right. right.
      rewrite decide_True by done. unfold completeSyncSession.
      do 2 right. by left.
  - intros Hk. apply Hsame in Hk as Hz. destruct Hz as [Hn Ho].
    rewrite Hn, Ho. rewrite !decide_False by lia.
    by rewrite decide_True.
Qed.

Lemma handleMetadataExchange_missing_ids_only_witness :
  SendMessage "REQUEST_SYNC" (NeedIds ["rec-2"])
    ∈ handleMetadataExchange 1 2 tie_db ["rec-1"; "rec-2"] /\
  (forall k, k ∈ ["rec-2"] <->
     k ∈ ["rec-1"; "rec-2"] /\ k ∉ getAllTodoIds tie_db) /\
  (forall k, k ∈ ["rec-1"] <-> k ∈ getAllTodoIds tie_db) /\
  handleMetadataExchange 1 2 tie_db ["rec-1"] = completeSyncSession 1 2.
Proof.
  assert (SendMessage "REQUEST_SYNC" (NeedIds ["rec-2"])
            ∈ handleMetadataExchange 1 2 tie_db ["rec-1"; "rec-2"]) as Hin
    by (vm_compute; apply list_elem_of_here).
  assert (forall k, k ∈ ["rec-1"] <-> k ∈ getAllTodoIds tie_db) as Hsame
    by (intros k; vm_compute; tauto).
  destruct (handleMetadataExchange_missing_ids_only 1 2 tie_db
              ["rec-1"; "rec-2"]) as (Hneed & _).
  destruct (handleMetadataExchange_missing_ids_only 1 2 tie_db ["rec-1"])
    as (_ & _ & _ & Hdone).
  split; [exact Hin|]. split; [exact (proj2 (Hneed _ _ Hin))|].
  split; [exact Hsame|exact (Hdone Hsame)].
Defined.

(** ** One round: request, answer, merge *)

Lemma versions_of_NoDup (todos : list Todo) (row : Todo) :
  NoDup (id <$> todos) -> row ∈ todos -> versions_of (id row) todos = [row].
Proof.
  induction todos as [|t rest IH]; intros Hnd Hin.
  { by apply elem_of_nil in Hin. }
  rewrite fmap_cons in Hnd. apply NoDup_cons in Hnd as [Ht Hnd].
  unfold versions_of. rewrite filter_cons.
  apply elem_of_cons in Hin as [->|Hin].
  - rewrite decide_True by done. f_equal. apply filter_none.
    intros y Hy Hid. apply Ht. apply list_elem_of_fmap. by exists y.
  - rewrite decide_False.
    + by apply IH.
    + intros Hid. apply Ht. apply list_elem_of_fmap. by exists row.
Qed.

Lemma round_fills_missing (mergeTodo : DB -> Todo -> option DB)
    (wins : Todo -> Todo -> bool) :
  (forall db todo, mergeTodo db todo = Some (merge_store wins db todo)) ->
  forall dbA dbB,
    keyed_by_id dbA -> keyed_by_id dbB ->
    exists m dbA',
      handleSyncRequest dbB
        (needFromRemote (getAllTodoIds dbA) (getAllTodoIds dbB)) = [m] /\
      handleSyncData mergeTodo dbA (out_todos m) = Some dbA' /\
      dom dbA' = dom dbA ∪ dom dbB /\
      (forall k, is_Some (dbA !! k) -> dbA' !! k = dbA !! k) /\
      (forall k row, dbA !! k = None -> dbB !! k = Some row ->
         dbA' !! k = Some (inserted_row row)) /\
      keyed_by_id dbA'.
Proof.
  intros Hm dbA dbB HkA HkB.
  set (need := needFromRemote (getAllTodoIds dbA) (getAllTodoIds dbB)).
  set (todos := getTodosByIds dbB need).
  pose proof (fun k => getAllTodoIds_elem_of dbA k HkA) as HinA.
  pose proof (fun k => getAllTodoIds_elem_of dbB k HkB) as HinB.
  assert (forall k, k ∈ need <-> is_Some (dbB !! k) /\ dbA !! k = None)
    as Hneed.
  { intros k. unfold need. rewrite needFromRemote_elem_of, HinA, HinB.
    by rewrite eq_None_not_Some. }
  assert (forall row, row ∈ todos <->
            dbB !! id row = Some row /\ dbA !! id row = None) as Htodos.
  { intros row. unfold todos.
    rewrite getTodosByIds_elem_of, Hneed. split.
    - intros [[k Hk] [_ Hnone]]. pose proof (HkB k row Hk) as Hid.
      rewrite Hid in Hnone |- *. done.
    - intros [Hk Hnone]. eauto. }
  destruct (batch_grows mergeTodo wins Hm dbA todos)
    as (dbA' & Hrun & Hdom & _ & Hother & Hkeyed).
  exists {| out_type := "SYNC_DATA"; out_todos := todos;
            out_batchIndex := None; out_totalBatches := None |}, dbA'.
  split; [reflexivity|]. split; [exact Hrun|]. split; [|split; [|split]].
  - rewrite Hdom. apply set_eq. intros k.
    rewrite !elem_of_union, elem_of_list_to_set, !elem_of_dom. split.
    + intros [HA|Hin]; [by left|]. right.
      apply list_elem_of_fmap in Hin as (row & -> & Hrow).
      apply Htodos in Hrow as [Hrow _]. eauto.
    + intros [HA|[row Hrow]]; [by left|].
      destruct (dbA !! k) as [a|] eqn:Ha; [left; eauto|]. right.
      apply list_elem_of_fmap. exists row. rewrite (HkB k row Hrow).
      split; [done|]. apply Htodos. by rewrite (HkB k row Hrow).
  - intros k [a Ha]. apply Hother. intros Hin.
    apply list_elem_of_fmap in Hin as (row & -> & Hrow).
    apply Htodos in Hrow as [_ Hnone]. congruence.
  - intros k row Hnone Hrow.
    assert (row ∈ todos) as Hin.
    { apply Htodos. by rewrite (HkB k row Hrow). }
    rewrite (handleSyncData_store mergeTodo wins Hm) in Hrun.
    injection Hrun as <-.
    rewrite foldl_merge_store_lookup, Hnone, <- (HkB k row Hrow).
    rewrite versions_of_NoDup; [reflexivity| |exact Hin].
    by apply getTodosByIds_NoDup.
  - by apply Hkeyed.
Qed.

(** One round between two replicas with keyed tables: [A] requests the ids
    that [B] announced and [A] lacks, [B] answers with [handleSyncRequest],
    [A] merges the answer.  [A] then holds every id of both tables; each
    record it lacked is stored as [B] sent it (with [synced = 0]); and every
    record [A] already had is exactly as before, also when [B] holds a newer
    version of it.  The ids [A] requests are the very ids [B] offers
    unasked ([remoteNeeds] on [B]'s side).  For both definitions of
    [mergeTodo]. *)
Theorem sync_round_fills_missing_ids (dbA dbB : DB) :
  keyed_by_id dbA -> keyed_by_id dbB ->
  needFromRemote (getAllTodoIds dbA) (getAllTodoIds dbB) =
    remoteNeeds (getAllTodoIds dbB) (getAllTodoIds dbA) /\
  (exists m dbA',
     handleSyncRequest dbB
       (needFromRemote (getAllTodoIds dbA) (getAllTodoIds dbB)) = [m] /\
     handleSyncData SyncEngine.mergeTodo dbA (out_todos m) = Some dbA' /\
     dom dbA' = dom dbA ∪ dom dbB /\
     (forall k, is_Some (dbA !! k) -> dbA' !! k = dbA !! k) /\
     (forall k row, dbA !! k = None -> dbB !! k = Some row ->
        dbA' !! k = Some (inserted_row row)) /\
     keyed_by_id dbA') /\
  (exists m dbA',
     handleSyncRequest dbB
       (needFromRemote (getAllTodoIds dbA) (getAllTodoIds dbB)) = [m] /\
     handleSyncData ConflictResolution.mergeTodo dbA (out_todos m)
       = Some dbA' /\
     dom dbA' = dom dbA ∪ dom dbB /\
     (forall k, is_Some (dbA !! k) -> dbA' !! k = dbA !! k) /\
     (forall k row, dbA !! k = None -> dbB !! k = Some row ->
        dbA' !! k = Some (inserted_row row)) /\
     keyed_by_id dbA').
Proof.
  intros HkA HkB. split; [reflexivity|]. split.
  - by apply (round_fills_missing _ lww_wins SyncEngine_mergeTodo_store).
  - by apply (round_fills_missing _ tiebreak_wins
                ConflictResolution_mergeTodo_store).
Qed.

Lemma newer_db_keyed : keyed_by_id {[ "rec-1" := newer_incoming ]}.
Proof.
  intros k row H. apply lookup_singleton_Some in H as [<- <-]. reflexivity.
Qed.

Lemma sync_round_fills_missing_ids_witness :
  keyed_by_id tie_db /\ keyed_by_id {[ "rec-1" := newer_incoming ]} /\
  (updated_at tie_local < updated_at newer_incoming)%Z /\
  exists m dbA',
    handleSyncRequest {[ "rec-1" := newer_incoming ]}
      (needFromRemote (getAllTodoIds tie_db)
         (getAllTodoIds {[ "rec-1" := newer_incoming ]})) = [m] /\
    handleSyncData SyncEngine.mergeTodo tie_db (out_todos m) = Some dbA' /\
    dbA' !! "rec-1" = Some tie_local.
Proof.
  split; [exact tie_db_keyed|]. split; [exact newer_db_keyed|].
  split; [reflexivity|].
  destruct (sync_round_fills_missing_ids tie_db {[ "rec-1" := newer_incoming ]}
              tie_db_keyed newer_db_keyed)
    as (_ & (m & dbA' & Hreq & Hrun & _ & Hkept & _) & _).
  exists m, dbA'. split; [exact Hreq|]. split; [exact Hrun|].
  rewrite (Hkept "rec-1"); [reflexivity|]. by exists tie_local.
Defined.

(** ** Batch transfer at its bounds *)

Lemma sendTodosInBatches_spec_witness :
  (0 < 2)%Z /\
  (Z.of_nat (length [tie_local; tie_incoming; newer_incoming])
     <= Z.of_nat 2 * 2)%Z /\
  exists ms,
    sendTodosInBatches 2 [tie_local; tie_incoming; newer_incoming] 2
      = Some ms /\
    concat (out_todos <$> ms) = [tie_local; tie_incoming; newer_incoming] /\
    out_batchIndex <$> ms =
      (fun j => Some (Finite (Z.of_nat j))) <$> seq 0 (length ms).
Proof.
  assert (0 < 2)%Z as Hb by lia.
  assert (Z.of_nat (length [tie_local; tie_incoming; newer_incoming])
            <= Z.of_nat 2 * 2)%Z as Hfuel by (simpl; lia).
  split; [exact Hb|]. split; [exact Hfuel|].
  destruct (sendTodosInBatches_spec [tie_local; tie_incoming; newer_incoming]
              2 2 Hb Hfuel) as (ms & Hms & Hcat & _ & Hidx).
  exists ms. split; [exact Hms|]. split; [exact Hcat|exact Hidx].
Defined.

Lemma sendTodosInBatches_from_stuck (fuel : nat) (todos : list Todo)
    (batchSize i : Z) :
  (batchSize <= 0)%Z -> (i < Z.of_nat (length todos))%Z ->
  sendTodosInBatches_from fuel todos batchSize i = None.
Proof.
  intros Hb. revert i. induction fuel as [|fuel IH]; intros i Hi; simpl.
  - by apply Z.ltb_lt in Hi as ->.
  - apply Z.ltb_lt in Hi as Hi'. rewrite Hi'. by rewrite IH by lia.
Qed.

(** [sendTodosInBatches] with a batch size that is zero or negative never
    ends on a non-empty list (no amount of fuel gives a result: the index
    does not advance), whereas on the empty list it ends at once and sends
    nothing, whatever the batch size. *)
Theorem sendTodosInBatches_bad_batch_size (fuel : nat) (todos : list Todo)
    (batchSize : Z) :
  ((batchSize <= 0)%Z -> todos ≠ [] ->
   sendTodosInBatches fuel todos batchSize = None) /\
  sendTodosInBatches fuel [] batchSize = Some [].
Proof.
  split.
  - intros Hb Hne. apply sendTodosInBatches_from_stuck; [done|].
    destruct todos; [done|]. simpl. lia.
  - by apply sendTodosInBatches_from_done.
Qed.

Lemma sendTodosInBatches_bad_batch_size_witness :
  (0 <= 0)%Z /\ [tie_local] ≠ [] /\
  sendTodosInBatches 1000 [tie_local] 0 = None.
Proof.
  assert (0 <= 0)%Z as Hb by lia.
  assert ([tie_local] ≠ []) as Hne by discriminate.
  split; [exact Hb|]. split; [exact Hne|].
  exact (proj1 (sendTodosInBatches_bad_batch_size 1000 [tie_local] 0) Hb Hne).
Defined.

(** ** Clock skew and QR payloads *)

(** [validateTimestamp] always returns a time within one day of the clock:
    a timestamp within that bound (the bound itself included) comes back
    unchanged, any other is replaced by the clock; validating twice is
    validating once. *)
Theorem validateTimestamp_within_one_day (now ts : Z) :
  (Z.abs (validateTimestamp now ts - now) <= oneDay)%Z /\
  ((Z.abs (ts - now) <= oneDay)%Z <-> validateTimestamp now ts = ts) /\
  validateTimestamp now (validateTimestamp now ts) = validateTimestamp now ts.
Proof.
  unfold validateTimestamp, oneDay.
  destruct (Z.gtb_spec (Z.abs (ts - now)) (24 * 60 * 60 * 1000)) as [Hgt|Hle].
  - split; [lia|]. split; [lia|].
    destruct (Z.gtb_spec (Z.abs (now - now)) (24 * 60 * 60 * 1000)); lia.
  - split; [lia|]. split; [tauto|].
    destruct (Z.gtb_spec (Z.abs (ts - now)) (24 * 60 * 60 * 1000)); lia.
Qed.

Lemma append_not_empty (a b : string) : a ≠ EmptyString -> a +:+ b ≠ EmptyString.
Proof. destruct a; [done|]. discriminate. Qed.

Lemma missing_false (s : string) : s ≠ EmptyString -> missing (Some s) = false.
Proof. intros H. unfold missing. by rewrite decide_False. Qed.

(** A QR payload made by [generateSyncQR] at time [now] for non-empty
    session and device ids passes [validateQRData] at every time up to and
    including [now] + 5 minutes, and fails with the expiry message at every
    later time.  A payload that lacks [sessionId], [deviceId] or [wsUrl] (or
    holds an empty one) is refused at any time, and one that lacks
    [expires] never expires. *)
Theorem validateQRData_generated (sessionId deviceId host : string) (db : DB)
    (now now' : Z) (qrData : QRData) :
  (sessionId ≠ EmptyString -> deviceId ≠ EmptyString ->
   ((now' <= now + 5 * 60 * 1000)%Z ->
    validateQRData now'
      (generateSyncQR_data sessionId deviceId host db now) = inr tt) /\
   ((now' > now + 5 * 60 * 1000)%Z ->
    validateQRData now'
      (generateSyncQR_data sessionId deviceId host db now) =
      inl "QR code has expired. Please generate a new one.")) /\
  (missing (qr_sessionId qrData) = true \/ missing (qr_deviceId qrData) = true
   \/ missing (qr_wsUrl qrData) = true ->
   validateQRData now' qrData = inl "Invalid QR code: missing required fields") /\
  (missing (qr_sessionId qrData) = false ->
   missing (qr_deviceId qrData) = false ->
   missing (qr_wsUrl qrData) = false -> qr_expires qrData = None ->
   validateQRData now' qrData = inr tt).
Proof.
  split; [|split].
  - intros Hs Hd. unfold validateQRData, generateSyncQR_data, qr_lifetime.
    cbn [qr_sessionId qr_deviceId qr_wsUrl qr_expires].
    rewrite !missing_false by (done || by apply append_not_empty).
    cbn [orb past_expiry]. split; intros Ht.
    + assert ((now' >? now + 5 * 60 * 1000)%Z = false) as ->; [|done].
      rewrite Z.gtb_ltb. apply Z.ltb_ge. lia.
    + assert ((now' >? now + 5 * 60 * 1000)%Z = true) as ->; [|done].
      by apply Z.gtb_gt.
  - unfold validateQRData. intros [-> | [-> | ->]];
      by rewrite ?orb_true_r.
  - unfold validateQRData. by intros -> -> -> ->.
Qed.

Lemma validateQRData_generated_witness :
  "session-1" ≠ EmptyString /\ "device-a" ≠ EmptyString /\
  validateQRData 300000
    (generateSyncQR_data "session-1" "device-a" "localhost:8080" tie_db 0)
    = inr tt /\
  validateQRData 300001
    (generateSyncQR_data "session-1" "device-a" "localhost:8080" tie_db 0)
    = inl "QR code has expired. Please generate a new one.".
Proof.
  assert ("session-1" ≠ EmptyString) as Hs by discriminate.
  assert ("device-a" ≠ EmptyString) as Hd by discriminate.
  split; [exact Hs|]. split; [exact Hd|].
  pose proof (validateQRData_generated "session-1" "device-a" "localhost:8080"
                tie_db 0 300000
                (generateSyncQR_data "session-1" "device-a" "localhost:8080"
                   tie_db 0)) as (Hin & _).
  pose proof (validateQRData_generated "session-1" "device-a" "localhost:8080"
                tie_db 0 300001
                (generateSyncQR_data "session-1" "device-a" "localhost:8080"
                   tie_db 0)) as (Hout & _).
  split.
  - apply (proj1 (Hin Hs Hd)). lia.
  - apply (proj2 (Hout Hs Hd)). lia.
Defined.

(** * Further properties of the relay server *)

(** ** Joining *)

(** A JOIN never completes.  [handleJoin], entered with [sessionsMu] free,
    creates the session if needed (with [CreatedAt = now]; an existing
    session keeps its [CreatedAt] and its other participants), enters the
    connection under the device id, and then waits for ever in
    [relayMessage] with the write lock held: nothing is forwarded, and from
    then on every [relayMessage], [removeConnection] and [cleanupSessions]
    waits as well.  The handler of the joining connection reads no further
    message. *)
Theorem handleJoin_never_returns (now : Z) (werr : Conn -> bool)
    (reg : Registry) (sessionID deviceID : string) (conn : Conn)
    (msg : SyncMessage) :
  sessionsMu reg = Unlocked ->
  exists reg' evs,
    handleJoin now werr reg sessionID deviceID conn msg = Blocks reg' evs /\
    sessionsMu reg' = WLocked /\ written evs = [] /\
    (exists session,
       sessions reg' !! sessionID = Some session /\
       Connections session =
         <[deviceID := conn]>
           (default ∅ (Connections <$> sessions reg !! sessionID)) /\
       CreatedAt session =
         default now (CreatedAt <$> sessions reg !! sessionID)) /\
    (forall k, k ≠ sessionID -> sessions reg' !! k = sessions reg !! k) /\
    (forall sid dev m, relayMessage werr reg' sid dev m = Blocks reg' []) /\
    (forall sid dev, removeConnection reg' sid dev = Blocks reg' []) /\
    (forall t, cleanupSessions t reg' = Blocks reg' []) /\
    (MsgType msg = "JOIN" -> MsgSessionID msg = sessionID ->
     FromDevice msg = deviceID ->
     forall sid0 dev0 rest,
       handler_loop werr reg conn sid0 dev0 ((now, msg) :: rest) =
         Blocks reg' evs).
Proof.
  intros Hmu. unfold handleJoin. rewrite Hmu. cbn [Lock].
  destruct (sessions reg !! sessionID) as [session|] eqn:Hs;
    rewrite relayMessage_blocked by reflexivity;
    (eexists _, _; split; [reflexivity|]);
    (split; [reflexivity|]); (split; [reflexivity|]);
    (split; [eexists; split; [apply lookup_insert_eq|by split]|]);
    (split; [intros k Hk; by apply lookup_insert_ne|]);
    (split; [intros; by apply relayMessage_blocked|]);
    (split; [reflexivity|]); (split; [reflexivity|]);
    intros Hj <- <- sid0 dev0 rest; cbn [handler_loop]; unfold dispatch;
    rewrite decide_True by done; unfold handleJoin; rewrite Hmu; cbn [Lock];
    rewrite Hs; by rewrite relayMessage_blocked by reflexivity.
Qed.

Lemma handleJoin_never_returns_witness :
  sessionsMu sample_registry = Unlocked /\
  exists reg' evs,
    handleJoin sweep_time no_write_error sample_registry "A" "d5" 5%positive
      sample_message = Blocks reg' evs /\
    sessionsMu reg' = WLocked /\ written evs = [] /\
    (forall t, cleanupSessions t reg' = Blocks reg' []).
Proof.
  split; [reflexivity|].
  destruct (handleJoin_never_returns sweep_time no_write_error sample_registry
              "A" "d5" 5%positive sample_message eq_refl)
    as (reg' & evs & Hrun & Hmu & Hw & _ & _ & _ & _ & Hsweep & _).
  exists reg', evs. auto.
Defined.

(** ** Relaying *)

Lemma filter_all {A : Type} (P : A -> Prop) `{forall x, Decision (P x)}
    (l : list A) :
  (forall x, x ∈ l -> P x) -> filter P l = l.
Proof.
  induction l as [|x l IH]; intros Hl; [reflexivity|].
  rewrite filter_cons_True by (apply Hl; by left).
  f_equal. apply IH. intros y Hy. apply Hl. by right.
Qed.

Lemma others_count (conns : gmap string Conn) (fromDevice : string) :
  length (filter (fun entry : string * Conn => entry.1 ≠ fromDevice)
            (map_to_list conns)) =
    size (delete fromDevice conns).
Proof.
  assert (filter (fun entry : string * Conn => entry.1 ≠ fromDevice)
            (map_to_list (delete fromDevice conns)) =
          map_to_list (delete fromDevice conns)) as Hall.
  { apply filter_all. intros [d c] Hin. apply elem_of_map_to_list in Hin.
    simpl. intros ->. by rewrite lookup_delete_eq in Hin. }
  destruct (conns !! fromDevice) as [c|] eqn:Hc.
  - rewrite <- (map_to_list_delete conns fromDevice c Hc).
    rewrite filter_cons_False by (simpl; tauto).
    by rewrite Hall, length_map_to_list.
  - rewrite delete_id in Hall |- * by done.
    by rewrite Hall, length_map_to_list.
Qed.

(** A failed write does not stop the relay: [relayMessage] attempts the
    same writes, in the same order, whether or not any [WriteJSON] fails
    (each failure only adds a log line), one write per participant other
    than the sender; it returns the registry as it found it; and for a
    session that is not in the registry it writes nothing and logs one
    warning. *)
Theorem relayMessage_write_failures (werr : Conn -> bool) (reg : Registry)
    (sessionID fromDevice : string) (msg : SyncMessage) :
  written (events_of (relayMessage werr reg sessionID fromDevice msg)) =
    written (events_of (relayMessage (fun _ => false) reg sessionID fromDevice
                          msg)) /\
  (sessionsMu reg ≠ WLocked ->
   registry_of (relayMessage werr reg sessionID fromDevice msg) = reg /\
   (forall session,
      sessions reg !! sessionID = Some session ->
      length (written (events_of
                (relayMessage werr reg sessionID fromDevice msg))) =
        size (delete fromDevice (Connections session))) /\
   (sessions reg !! sessionID = None ->
    relayMessage werr reg sessionID fromDevice msg =
      Returns reg [EvLog "WARN" "Session not found" sessionID])).
Proof.
  split; [by rewrite !relayMessage_written|].
  intros Hmu. split; [|split].
  - by rewrite relayMessage_returns.
  - intros session Hs. rewrite relayMessage_written, Hs.
    rewrite decide_False by done. rewrite length_fmap. apply others_count.
  - intros Hs. rewrite relayMessage_returns by done. by rewrite Hs.
Qed.

Lemma relayMessage_write_failures_witness :
  sessionsMu sample_registry ≠ WLocked /\
  sessions sample_registry !! "A" = Some session_A /\
  length (written (events_of
            (relayMessage (fun _ => true) sample_registry "A" "d1"
               sample_message))) = 2%nat /\
  relayMessage (fun _ => true) sample_registry "Z" "d1" sample_message =
    Returns sample_registry [EvLog "WARN" "Session not found" "Z"].
Proof.
  assert (sessionsMu sample_registry ≠ WLocked) as Hmu by discriminate.
  destruct (relayMessage_write_failures (fun _ => true) sample_registry "A"
              "d1" sample_message) as (_ & HA).
  destruct (HA Hmu) as (_ & Hcount & _).
  destruct (relayMessage_write_failures (fun _ => true) sample_registry "Z"
              "d1" sample_message) as (_ & HZ).
  destruct (HZ Hmu) as (_ & _ & Hnone).
  split; [exact Hmu|]. split; [reflexivity|]. split.
  - rewrite (Hcount session_A eq_refl). reflexivity.
  - apply Hnone. reflexivity.
Defined.

(** ** The handler loop *)

Lemma dispatch_not_join (now : Z) (werr : Conn -> bool) (reg : Registry)
    (conn : Conn) (msg : SyncMessage) :
  MsgType msg ≠ "JOIN" -> sessionsMu reg ≠ WLocked ->
  exists evs,
    dispatch now werr reg conn msg = Returns reg evs /\
    (forall c, EvClose c ∉ evs) /\
    (forall sessionID, EvDelete sessionID ∉ evs).
Proof.
  intros Hj Hmu. unfold dispatch. rewrite decide_False by done.
  destruct (decide (MsgType msg ∈ relayed_types)) as [Hr|Hr].
  - rewrite relayMessage_returns by done. eexists. split; [reflexivity|].
    pose proof (relayMessage_no_close werr reg (MsgSessionID msg)
                  (FromDevice msg) msg) as Hnc.
    rewrite relayMessage_returns in Hnc by done. split; [exact Hnc|].
    intros sid Hin. destruct (sessions reg !! MsgSessionID msg).
    + apply list_elem_of_bind in Hin as ([d c] & Hin & _).
      unfold relay_to in Hin. case_decide; [|by apply elem_of_nil in Hin].
      apply elem_of_cons in Hin as [Hin|Hin]; [discriminate|].
      destruct (werr c).
      * apply elem_of_cons in Hin as [Hin|Hin]; [discriminate|].
        by apply elem_of_nil in Hin.
      * by apply elem_of_nil in Hin.
    + apply elem_of_cons in Hin as [Hin|Hin]; [discriminate|].
      by apply elem_of_nil in Hin.
  - destruct (decide (MsgType msg = "PING")).
    + eexists. split; [reflexivity|].
      split; intros ? Hin; apply list_elem_of_singleton in Hin; discriminate.
    + eexists. split; [reflexivity|].
      split; intros ? Hin; by apply elem_of_nil in Hin.
Qed.

Lemma removeConnection_returns (reg : Registry) (sessionID deviceID : string) :
  sessionsMu reg = Unlocked ->
  exists reg' evs,
    removeConnection reg sessionID deviceID = Returns reg' evs /\
    sessionsMu reg' = Unlocked /\ (forall c, EvClose c ∉ evs).
Proof.
  intros Hmu. unfold removeConnection. rewrite Hmu. cbn [Lock].
  destruct (sessions reg !! sessionID) as [s|].
  - case_decide; eexists _, _; (split; [reflexivity|]);
      (split; [reflexivity|]); intros c Hin;
      repeat (apply elem_of_cons in Hin as [Hin|Hin]; [discriminate|]);
      by apply elem_of_nil in Hin.
  - eexists _, _. split; [reflexivity|]. split; [reflexivity|].
    intros c Hin. by apply elem_of_nil in Hin.
Qed.

Lemma handler_loop_ends (werr : Conn -> bool) (conn : Conn)
    (reads : list (Z * SyncMessage)) (reg : Registry)
    (sessionID deviceID : string) :
  sessionsMu reg = Unlocked ->
  Forall (fun read => MsgType read.2 ≠ "JOIN") reads ->
  exists evs reg' evs',
    removeConnection reg
      (default sessionID (MsgSessionID ∘ snd <$> last reads))
      (default deviceID (FromDevice ∘ snd <$> last reads))
      = Returns reg' evs' /\
    handler_loop werr reg conn sessionID deviceID reads =
      Returns reg'
        (evs ++ EvLog "ERROR" "Read message failed" EmptyString
             :: evs' ++ [EvClose conn]) /\
    (forall c, EvClose c ∉ evs) /\ (forall c, EvClose c ∉ evs') /\
    (forall sid, EvDelete sid ∉ evs).
Proof.
  intros Hmu Hreads. revert sessionID deviceID.
  induction Hreads as [|[now msg] rest Hj _ IH]; intros sessionID deviceID.
  - destruct (removeConnection_returns reg sessionID deviceID Hmu)
      as (reg' & evs' & Hrm & _ & Hnc).
    exists [], reg', evs'. cbn [last fmap option_fmap option_map default].
    split; [exact Hrm|]. cbn [handler_loop]. rewrite Hrm.
    split; [reflexivity|]. split; [|split]; try done;
      intros ? Hin; by apply elem_of_nil in Hin.
  - destruct (dispatch_not_join now werr reg conn msg Hj)
      as (evs0 & Hd & Hnc0 & Hnd0); [by rewrite Hmu|].
    destruct (IH (MsgSessionID msg) (FromDevice msg))
      as (evs & reg' & evs' & Hrm & Hloop & Hnc & Hnc' & Hnd).
    exists (evs0 ++ evs), reg', evs'.
    assert (forall d : string, forall f : SyncMessage -> string,
              default d (f ∘ snd <$> last ((now, msg) :: rest)) =
              default (f msg) (f ∘ snd <$> last rest)) as Hlast.
    { intros d f. destruct rest as [|r rest']; [reflexivity|].
      change (last ((now, msg) :: r :: rest')) with (last (r :: rest')).
      by destruct (last (r :: rest')) eqn:Hl;
        [|apply last_None in Hl]. }
    rewrite !Hlast. split; [exact Hrm|].
    cbn [handler_loop]. rewrite Hd, Hloop. cbn [then_].
    rewrite <- app_assoc. split; [reflexivity|].
    split; [|split; [exact Hnc'|]].
    + intros c Hin. apply elem_of_app in Hin as [Hin|Hin];
        [by apply (Hnc0 c)|by apply (Hnc c)].
    + intros sid Hin. apply elem_of_app in Hin as [Hin|Hin];
        [by apply (Hnd0 sid)|by apply (Hnd sid)].
Qed.

(** When a connection that sent no JOIN stops delivering messages, the
    handler returns: it has closed no connection and deleted no session
    while reading, it then calls [removeConnection] once, with the
    [sessionId] and [fromDevice] of the last message read (the empty
    strings if there was none), and closes its own connection last.  The
    entry that is removed is thus the one the last message names, also when
    that entry holds another connection. *)
Theorem syncWebSocketHandler_on_disconnect (werr : Conn -> bool)
    (reg : Registry) (conn : Conn) (reads : list (Z * SyncMessage)) :
  sessionsMu reg = Unlocked ->
  Forall (fun read => MsgType read.2 ≠ "JOIN") reads ->
  exists evs reg' evs',
    removeConnection reg
      (default EmptyString (MsgSessionID ∘ snd <$> last reads))
      (default EmptyString (FromDevice ∘ snd <$> last reads))
      = Returns reg' evs' /\
    syncWebSocketHandler werr reg conn reads =
      Returns reg'
        (evs ++ EvLog "ERROR" "Read message failed" EmptyString
             :: evs' ++ [EvClose conn]) /\
    (forall c, EvClose c ∉ evs) /\ (forall c, EvClose c ∉ evs') /\
    (forall sid, EvDelete sid ∉ evs).
Proof. intros Hmu Hreads. by apply handler_loop_ends. Qed.

Lemma syncWebSocketHandler_on_disconnect_witness :
  sessionsMu sample_registry = Unlocked /\
  Forall (fun read : Z * SyncMessage => MsgType read.2 ≠ "JOIN")
    [(0%Z, spoofed_message)] /\
  exists evs reg' evs',
    syncWebSocketHandler no_write_error sample_registry 1%positive
      [(0%Z, spoofed_message)] =
      Returns reg'
        (evs ++ EvLog "ERROR" "Read message failed" EmptyString
             :: evs' ++ [EvClose 1%positive]) /\
    exists session,
      sessions reg' !! "A" = Some session /\
      Connections session !! "d2" = None /\
      Connections session !! "d1" = Some 1%positive.
Proof.
  assert (Forall (fun read : Z * SyncMessage => MsgType read.2 ≠ "JOIN")
            [(0%Z, spoofed_message)]) as Hreads.
  { constructor; [discriminate|constructor]. }
  split; [reflexivity|]. split; [exact Hreads|].
  destruct (syncWebSocketHandler_on_disconnect no_write_error sample_registry
              1%positive [(0%Z, spoofed_message)] eq_refl Hreads)
    as (evs & reg' & evs' & Hrm & Hrun & _).
  exists evs, reg', evs'. split; [exact Hrun|].
  assert (registry_of (removeConnection sample_registry "A" "d2") = reg')
    as <-.
  { change (removeConnection sample_registry "A" "d2" = Returns reg' evs')
      in Hrm. by rewrite Hrm. }
  eexists. split; [vm_compute; reflexivity|].
  split; vm_compute; reflexivity.
Defined.

(** A failed read, be it a closed connection or a message that does not
    decode, ends the loop: what follows it is never handled, and after a
    run without JOIN the handler closes the connection. *)
Lemma decoded_prefix_error (msgs : list (Z * SyncMessage)) (now : Z)
    (later : list (Z * ReadResult)) :
  decoded_prefix
    (((fun read : Z * SyncMessage => (read.1, Decoded read.2)) <$> msgs)
       ++ (now, ReadError) :: later) = msgs.
Proof.
  induction msgs as [|[t msg] rest IH]; [reflexivity|].
  simpl. f_equal. exact IH.
Qed.

Lemma serve_read_error (werr : Conn -> bool) (reg : Registry) (conn : Conn)
    (msgs : list (Z * SyncMessage)) (now : Z) (later : list (Z * ReadResult)) :
  sessionsMu reg = Unlocked ->
  Forall (fun read => MsgType read.2 ≠ "JOIN") msgs ->
  serve werr reg conn
    (((fun read : Z * SyncMessage => (read.1, Decoded read.2)) <$> msgs)
       ++ (now, ReadError) :: later) =
    syncWebSocketHandler werr reg conn msgs /\
  exists reg' evs,
    syncWebSocketHandler werr reg conn msgs =
      Returns reg' (evs ++ [EvClose conn]).
Proof.
  intros Hmu Hmsgs. unfold serve. rewrite decoded_prefix_error.
  split; [reflexivity|].
  destruct (handler_loop_ends werr conn msgs reg EmptyString EmptyString
              Hmu Hmsgs) as (evs & reg' & evs' & _ & Hrun & _).
  exists reg', (evs ++ EvLog "ERROR" "Read message failed" EmptyString :: evs').
  unfold syncWebSocketHandler. rewrite Hrun. f_equal.
  rewrite <- !app_assoc. reflexivity.
Qed.

(** ** Leaving, again *)

Lemma registry_same (reg : Registry) :
  sessionsMu reg = Unlocked ->
  {| sessions := sessions reg; sessionsMu := Unlocked |} = reg.
Proof. destruct reg. simpl. by intros ->. Qed.

(** [removeConnection] for a session that is not in the registry, or for a
    device that is not in the (non-empty) session, leaves the registry as
    it is; and a second [removeConnection] of the same device never changes
    what the first one left. *)
Theorem removeConnection_absent (reg : Registry) (S D : string) :
  sessionsMu reg = Unlocked ->
  (sessions reg !! S = None -> removeConnection reg S D = Returns reg []) /\
  (forall session,
     sessions reg !! S = Some session ->
     Connections session !! D = None -> Connections session ≠ ∅ ->
     removeConnection reg S D =
       Returns reg [EvLog "INFO" "Device left session" D]) /\
  (forall reg1 evs1,
     removeConnection reg S D = Returns reg1 evs1 ->
     registry_of (removeConnection reg1 S D) = reg1).
Proof.
  intros Hmu.
  assert (forall r, sessionsMu r = Unlocked ->
            sessions r !! S = None -> removeConnection r S D = Returns r [])
    as Hnone.
  { intros r Hr Hs. unfold removeConnection. rewrite Hr, Hs. cbn.
    unfold with_mu. by rewrite registry_same. }
  assert (forall r session, sessionsMu r = Unlocked ->
            sessions r !! S = Some session ->
            Connections session !! D = None -> Connections session ≠ ∅ ->
            removeConnection r S D =
              Returns r [EvLog "INFO" "Device left session" D]) as Hstay.
  { intros r session Hr Hs Hd Hne. unfold removeConnection.
    rewrite Hr, Hs. cbn [Lock Unlock Connections].
    rewrite (delete_id _ _ Hd).
    rewrite decide_False by by apply map_size_non_empty_iff.
    f_equal. rewrite <- (registry_same r Hr) at 2. f_equal.
    apply insert_id. rewrite Hs. by destruct session. }
  split; [intros Hs; by apply Hnone|].
  split; [intros session Hs Hd Hne; by apply (Hstay reg session)|].
  intros reg1 evs1 Hrun. unfold removeConnection in Hrun.
  rewrite Hmu in Hrun. cbn [Lock Unlock] in Hrun.
  destruct (sessions reg !! S) as [session|] eqn:Hs.
  - cbn [Connections] in Hrun. case_decide as Hz.
    + injection Hrun as <- <-. rewrite Hnone; [done|done|].
      apply lookup_delete_eq.
    + injection Hrun as <- <-.
      erewrite Hstay; [done|done|apply lookup_insert_eq| |].
      * apply lookup_delete_eq.
      * by apply map_size_non_empty_iff.
  - injection Hrun as <- <-. unfold with_mu. rewrite registry_same by done.
    by rewrite Hnone.
Qed.

Lemma removeConnection_absent_witness :
  sessionsMu sample_registry = Unlocked /\
  sessions sample_registry !! "Z" = None /\
  removeConnection sample_registry "Z" "d1" = Returns sample_registry [] /\
  sessions sample_registry !! "A" = Some session_A /\
  Connections session_A !! "d9" = None /\ Connections session_A ≠ ∅ /\
  removeConnection sample_registry "A" "d9" =
    Returns sample_registry [EvLog "INFO" "Device left session" "d9"].
Proof.
  destruct (removeConnection_absent sample_registry "Z" "d1" eq_refl)
    as (Hnone & _).
  destruct (removeConnection_absent sample_registry "A" "d9" eq_refl)
    as (_ & Hstay & _).
  assert (Connections session_A ≠ ∅) as Hne.
  { intros He. assert (Connections session_A !! "d1" = Some 1%positive) as Hd
      by reflexivity. rewrite He in Hd. by rewrite lookup_empty in Hd. }
  split; [reflexivity|]. split; [reflexivity|]. split; [exact (Hnone eq_refl)|].
  split; [reflexivity|]. split; [reflexivity|]. split; [exact Hne|].
  exact (Hstay session_A eq_refl eq_refl Hne).
Defined.

(** ** The sweep, again *)

Lemma cleanup_fold_sub (now : Z) (entries : list (string * SyncSession))
    (m : gmap string SyncSession) (evs : list Event) (k : string)
    (s : SyncSession) :
  (foldl (cleanup_step now) (m, evs) entries).1 !! k = Some s ->
  m !! k = Some s.
Proof.
  revert m evs. induction entries as [|[sid s'] rest IH]; intros m evs H.
  - exact H.
  - rewrite cleanup_fold_cons in H. destruct (expired now s').
    + apply IH in H. by apply lookup_delete_Some in H as [_ ?].
    + by apply IH in H.
Qed.

Lemma cleanup_fold_noop (now : Z) (entries : list (string * SyncSession))
    (m : gmap string SyncSession) (evs : list Event) :
  (forall sid s, (sid, s) ∈ entries -> expired now s = false) ->
  foldl (cleanup_step now) (m, evs) entries = (m, evs).
Proof.
  induction entries as [|[sid s] rest IH]; intros Hall; [reflexivity|].
  rewrite cleanup_fold_cons, (Hall sid s) by by left.
  apply IH. intros sid' s' Hin. apply (Hall sid'). by right.
Qed.

Lemma cleanup_fold_event (now : Z) (entries : list (string * SyncSession))
    (m : gmap string SyncSession) (evs : list Event) (ev : Event) :
  ev ∈ (foldl (cleanup_step now) (m, evs) entries).2 ->
  ev ∈ evs \/
  (exists sid s, (sid, s) ∈ entries /\ expired now s = true /\
     (ev = EvDelete sid \/
      ev = EvLog "INFO" "Cleaned up expired session" sid \/
      exists d c, Connections s !! d = Some c /\ ev = EvClose c)).
Proof.
  revert m evs. induction entries as [|[sid s] rest IH]; intros m evs Hin.
  - by left.
  - rewrite cleanup_fold_cons in Hin. destruct (expired now s) eqn:He.
    + apply IH in Hin as [Hin|(sid' & s' & Hin' & He' & Hev)].
      * rewrite !elem_of_app in Hin. destruct Hin as [Hin|[Hin|Hin]].
        { by left. }
        { right. exists sid, s. split; [by left|]. split; [done|].
          right; right.
          apply list_elem_of_fmap in Hin as (c & -> & Hc).
          apply list_elem_of_fmap in Hc as ([d c'] & -> & Hc).
          apply elem_of_map_to_list in Hc. by exists d, c'. }
        { right. exists sid, s. split; [by left|]. split; [done|].
          apply elem_of_cons in Hin as [->|Hin]; [by left|].
          apply list_elem_of_singleton in Hin as ->. right; by left. }
      * right. exists sid', s'. split; [by right|done].
    + apply IH in Hin as [Hin|(sid' & s' & Hin' & He' & Hev)]; [by left|].
      right. exists sid', s'. split; [by right|done].
Qed.

(** A sweep closes and deletes nothing but what has expired: every
    connection it closes belongs to a session older than 15 minutes, every
    session it deletes is one of those, and it writes to no connection.
    Sweeping again at the same or an earlier clock value does nothing, and
    a registry without empty sessions stays so. *)
Theorem cleanupSessions_only_expired (now : Z) (reg : Registry) :
  sessionsMu reg = Unlocked ->
  exists reg' evs,
    cleanupSessions now reg = Returns reg' evs /\
    (forall c, EvClose c ∈ evs ->
       exists sessionID session deviceID,
         sessions reg !! sessionID = Some session /\
         (age now session > 15 * Minute)%Z /\
         Connections session !! deviceID = Some c) /\
    (forall sessionID, EvDelete sessionID ∈ evs ->
       exists session,
         sessions reg !! sessionID = Some session /\
         (age now session > 15 * Minute)%Z) /\
    (forall c m, EvWriteJSON c m ∉ evs) /\
    (forall t, (t <= now)%Z -> cleanupSessions t reg' = Returns reg' []) /\
    (no_empty_session (sessions reg) -> no_empty_session (sessions reg')).
Proof.
  intros Hmu. unfold cleanupSessions at 1. rewrite Hmu. cbn [Lock Unlock].
  eexists _, _. split; [reflexivity|].
  set (st := foldl (cleanup_step now) (sessions reg, [])
               (map_to_list (sessions reg))).
  assert (forall ev, ev ∈ st.2 ->
            exists sid s, sessions reg !! sid = Some s /\
              (age now s > 15 * Minute)%Z /\
              (ev = EvDelete sid \/
               ev = EvLog "INFO" "Cleaned up expired session" sid \/
               exists d c, Connections s !! d = Some c /\ ev = EvClose c))
    as Hev.
  { intros ev Hin. apply cleanup_fold_event in Hin
      as [Hin|(sid & s & Hin & He & Hcase)]; [by apply elem_of_nil in Hin|].
    exists sid, s. split; [by apply elem_of_map_to_list|].
    split; [by apply expired_iff|done]. }
  split; [|split; [|split; [|split]]].
  - intros c Hin. destruct (Hev _ Hin) as (sid & s & Hs & Hage & Hcase).
    destruct Hcase as [?|[?|(d & c' & Hc & [= ->])]]; try discriminate.
    by exists sid, s, d.
  - intros sid Hin. destruct (Hev _ Hin) as (sid' & s & Hs & Hage & Hcase).
    destruct Hcase as [[= ->]|[?|(d & c' & Hc & ?)]]; try discriminate.
    by exists s.
  - intros c m Hin. destruct (Hev _ Hin) as (sid' & s & Hs & Hage & Hcase).
    destruct Hcase as [?|[?|(d & c' & Hc & ?)]]; discriminate.
  - intros t Ht. unfold cleanupSessions. cbn [sessionsMu sessions Lock Unlock].
    rewrite cleanup_fold_noop; [reflexivity|].
    intros sid s Hin. apply elem_of_map_to_list in Hin.
    apply expired_false_iff.
    assert (expired now s = false) as Hlive.
    { destruct (expired now s) eqn:He; [|done].
      pose proof (cleanup_fold_sub _ _ _ _ _ _ Hin) as Hs.
      destruct (cleanup_fold_swept now (map_to_list (sessions reg))
                  (sessions reg) [] sid s) as [Hgone _];
        [by apply elem_of_map_to_list|done|].
      fold st in Hgone. congruence. }
    apply expired_false_iff in Hlive. unfold age in *. lia.
  - intros Hinv sid s Hs. apply cleanup_fold_sub in Hs. by apply (Hinv sid).
Qed.

Lemma cleanupSessions_only_expired_witness :
  sessionsMu sample_registry = Unlocked /\
  exists reg' evs,
    cleanupSessions sweep_time sample_registry = Returns reg' evs /\
    (EvClose 3%positive ∉ evs) /\
    cleanupSessions sweep_time reg' = Returns reg' [].
Proof.
  split; [reflexivity|].
  destruct (cleanupSessions_only_expired sweep_time sample_registry eq_refl)
    as (reg' & evs & Hrun & Hclose & _ & _ & Hagain & _).
  exists reg', evs. split; [exact Hrun|]. split.
  - intros Hin. destruct (Hclose _ Hin) as (sid & s & d & Hs & Hage & Hc).
    unfold sample_registry in Hs. cbn [sessions] in Hs.
    apply lookup_insert_Some in Hs as [[<- <-]|[_ Hs]].
    + by destruct (session_A_entries _ _ Hc) as [[_ ?]|[[_ ?]|[_ ?]]].
    + apply lookup_singleton_Some in Hs as [<- <-].
      vm_compute in Hage. discriminate.
  - apply Hagain. lia.
Defined.

(** * The asset handler *)

Lemma last_part_no_dot (s : string) :
  contains_dot s = false -> last_part s = (false, s).
Proof.
  induction s as [|c s IH]; [reflexivity|]. simpl. intros H.
  apply orb_false_iff in H as [Hc Hs]. by rewrite (IH Hs), Hc.
Qed.

Lemma last_part_found (s : string) :
  (last_part s).1 = contains_dot s.
Proof.
  induction s as [|c s IH]; [reflexivity|]. simpl.
  destruct (last_part s) as [found part]. simpl in IH. subst found.
  destruct (contains_dot s); simpl; [by rewrite orb_true_r|].
  by destruct (Ascii.eqb c _).
Qed.

Lemma last_part_cons (c : Ascii.ascii) (rest : string) :
  last_part (String c rest) =
    if (last_part rest).1 then (true, (last_part rest).2)
    else if Ascii.eqb c (Ascii.ascii_of_nat 46) then (true, rest)
    else (false, String c (last_part rest).2).
Proof. simpl. by destruct (last_part rest) as [[] ?]. Qed.

Lemma last_part_suffix (prefix ext : string) :
  contains_dot ext = false ->
  last_part (prefix +:+ "." +:+ ext) = (true, ext).
Proof.
  intros Hext. induction prefix as [|c prefix IH].
  - change (last_part (String (Ascii.ascii_of_nat 46) ext) = (true, ext)).
    by rewrite last_part_cons, (last_part_no_dot ext Hext).
  - change (last_part (String c (prefix +:+ "." +:+ ext)) = (true, ext)).
    by rewrite last_part_cons, IH.
Qed.

Lemma last_part_inv (path ext : string) :
  last_part path = (true, ext) ->
  contains_dot ext = false /\ exists prefix, path = prefix +:+ "." +:+ ext.
Proof.
  revert ext. induction path as [|c path IH]; intros ext; [done|]. simpl.
  destruct (last_part path) as [found part] eqn:Hlp. destruct found.
  - intros [= <-]. destruct (IH part eq_refl) as (Hnd & prefix & ->).
    split; [done|]. by exists (String c prefix).
  - destruct (Ascii.eqb c _) eqn:Hc; [|done]. intros [= <-].
    apply Ascii.eqb_eq in Hc as ->. split.
    + pose proof (last_part_found path) as Hf. rewrite Hlp in Hf. by simpl in Hf.
    + by exists EmptyString.
Qed.

(** [assetsWithType] sets a Content-Type exactly for paths whose text
    after the last dot is [wasm] or [js]: [application/wasm] and
    [application/javascript].  A path without a dot, or with any other
    last extension (for instance a [.js.map] file), gets none from this
    handler. *)
Theorem assets_content_type_by_extension (path : string) :
  (forall mime,
     assets_content_type path = Some mime <->
     (mime = "application/wasm" /\ exists prefix, path = prefix +:+ ".wasm")
     \/ (mime = "application/javascript" /\
         exists prefix, path = prefix +:+ ".js")) /\
  (contains_dot path = false -> assets_content_type path = None).
Proof.
  split.
  - intros mime. unfold assets_content_type. split.
    + destruct (last_part path) as [found ext] eqn:Hlp.
      destruct found; [|done].
      apply last_part_inv in Hlp as (_ & prefix & ->).
      unfold mimeType. repeat case_decide; subst; intros [= <-];
        [left|right]; (split; [reflexivity|by exists prefix]).
    + intros [[-> [prefix ->]]|[-> [prefix ->]]].
      * change (prefix +:+ ".wasm") with (prefix +:+ "." +:+ "wasm").
        by rewrite (last_part_suffix prefix "wasm").
      * change (prefix +:+ ".js") with (prefix +:+ "." +:+ "js").
        by rewrite (last_part_suffix prefix "js").
  - intros Hnd. unfold assets_content_type.
    by rewrite (last_part_no_dot path Hnd).
Qed.

Lemma assets_content_type_by_extension_witness :
  contains_dot "/assets/sqlite3" = false /\
  assets_content_type "/assets/sqlite3" = None /\
  assets_content_type "/assets/sqlite3.wasm" = Some "application/wasm" /\
  assets_content_type "/assets/app.js.map" = None.
Proof.
  split; [reflexivity|]. split.
  - apply (proj2 (assets_content_type_by_extension "/assets/sqlite3")).
    reflexivity.
  - split; reflexivity.
Defined.

(** * Inserting and reading back *)

(** [insertTodo] fails exactly when the id is already stored.  When it
    succeeds the record can be read back with the ten inserted columns as
    given and [synced = 0], the table has one row more and no other row has
    changed, and inserting any record with that id again fails.
    [updateTodo] for an id that is not stored changes nothing. *)
Theorem insertTodo_round_trip (db : DB) (todo : Todo) :
  (insertTodo db todo = None <-> is_Some (db !! id todo)) /\
  (forall db',
     insertTodo db todo = Some db' ->
     getTodoById db' (id todo) = Some (inserted_row todo) /\
     size db' = S (size db) /\
     (forall k, k ≠ id todo -> db' !! k = db !! k) /\
     (forall again, id again = id todo -> insertTodo db' again = None)) /\
  (db !! id todo = None -> updateTodo db todo = db).
Proof.
  unfold insertTodo, getTodoById. split; [|split].
  - destruct (db !! id todo); split; try done; by intros [? ?].
  - intros db'. destruct (db !! id todo) eqn:Hl; [done|]. intros [= <-].
    split; [apply lookup_insert_eq|]. split; [by apply map_size_insert_None|].
    split; [intros k Hk; by apply lookup_insert_ne|].
    intros again ->. by rewrite lookup_insert_eq.
  - intros Hl. unfold updateTodo. apply map_eq. intros k.
    destruct (decide (k = id todo)) as [->|Hk].
    + by rewrite lookup_alter_eq, Hl.
    + by rewrite lookup_alter_ne.
Qed.

Lemma insertTodo_round_trip_witness :
  insertTodo tie_db tie_incoming = None /\
  exists db',
    insertTodo ∅ newer_incoming = Some db' /\
    getTodoById db' "rec-1" = Some (inserted_row newer_incoming) /\
    synced (inserted_row newer_incoming) = 0%Z /\
    insertTodo db' tie_incoming = None.
Proof.
  destruct (insertTodo_round_trip tie_db tie_incoming) as (Hfail & _).
  destruct (insertTodo_round_trip ∅ newer_incoming) as (_ & Hok & _).
  split; [apply Hfail; by exists tie_local|].
  exists (<["rec-1" := inserted_row newer_incoming]> ∅).
  destruct (Hok (<["rec-1" := inserted_row newer_incoming]> ∅) eq_refl)
    as (Hread & _ & _ & Hagain).
  split; [reflexivity|]. split; [exact Hread|]. split; [reflexivity|].
  apply Hagain. reflexivity.
Defined.

Lemma validateTimestamp_within_one_day_witness :
  (Z.abs (validateTimestamp skewed_now 200 - skewed_now) <= oneDay)%Z /\
  validateTimestamp skewed_now 200 = skewed_now /\
  validateTimestamp skewed_now (skewed_now - oneDay) = (skewed_now - oneDay)%Z.
Proof.
  destruct (validateTimestamp_within_one_day skewed_now 200) as (Hb & _ & _).
  destruct (validateTimestamp_within_one_day skewed_now (skewed_now - oneDay))
    as (_ & Hkeep & _).
  split; [exact Hb|]. split; [reflexivity|].
  apply Hkeep. vm_compute. discriminate.
Defined.

Lemma ConflictResolution_tie_converges_witness :
  id tie_incoming = id tie_local /\
  updated_at tie_incoming = updated_at tie_local /\
  String.ltb (device_id tie_incoming) (device_id tie_local) = true /\
  exists dbA' dbB' rowA rowB,
    ConflictResolution.mergeTodo {[ "rec-1" := tie_incoming ]} tie_local
      = Some dbA' /\
    ConflictResolution.mergeTodo tie_db tie_incoming = Some dbB' /\
    dbA' !! "rec-1" = Some rowA /\ dbB' !! "rec-1" = Some rowB /\
    title rowA = "Buy whole milk" /\ title rowB = "Buy whole milk".
Proof.
  split; [reflexivity|]. split; [reflexivity|]. split; [reflexivity|].
  assert (({[ "rec-1" := tie_incoming ]} : DB) !! id tie_incoming
            = Some tie_incoming) as HinA by reflexivity.
  assert (tie_db !! id tie_local = Some tie_local) as HinB by reflexivity.
  assert (String.ltb (device_id tie_incoming) (device_id tie_local) = true)
    as Hlt by reflexivity.
  destruct (ConflictResolution_tie_converges {[ "rec-1" := tie_incoming ]}
              tie_db tie_incoming tie_local eq_refl HinA HinB eq_refl Hlt)
    as (dbA' & dbB' & rowA & rowB & HA & HB & HrA & HrB & HpA & HpB).
  exists dbA', dbB', rowA, rowB.
  split; [exact HA|]. split; [exact HB|]. split; [exact HrA|].
  split; [exact HrB|]. split; [exact (proj1 HpA)|exact (proj1 HpB)].
Defined.
